(** * Ticket assignment: scoring model and greedy allocator

    A shallow embedding of [ticket_assignment.py] (class
    [TicketAssignmentSystem]) and the properties of its scoring functions
    and of its allocation loop.

    Conventions of the embedding.
    - Python [int] is [Z]; Python [float] is idealised as a real number
      ([R]): [math.exp] is [exp], [math.sqrt] is [sqrt], and an [int] that
      meets a [float] is injected with [IZR].
    - Python [str] is [string], read as ASCII text: [str.lower] maps
      [A-Z] to [a-z], [\w] is [[A-Za-z0-9_]] and [\s] is the ASCII
      white space of [str.split].
    - A [dict] iterated in insertion order ([agent['skills']], the static
      keyword table) is an association list; the per-agent counter
      [agent_assignment_counts], only read and updated by key, is a
      [gmap string Z].
    - [print] is a log of lines threaded through the allocator. *)

From Stdlib Require Import Reals Lra Lia ZArith List String Ascii Bool.
From Stdlib Require Import Permutation Sorted DecimalString.
From stdpp Require Import base gmap strings.
Import ListNotations.

Open Scope string_scope.
Open Scope Z_scope.
Open Scope R_scope.

(** ** Text primitives *)

(** The character classes below are those of Python on ASCII text. On a
    character beyond code 127 Python's [\w], [\b] and [str.lower] know
    more letters than these do, so a statement about the text of a
    ticket speaks for the source where that text is ASCII. *)

Module Text.

Definition code (c : ascii) : N := N_of_ascii c.

Definition in_range (lo hi : N) (c : ascii) : bool :=
  ((lo <=? code c) && (code c <=? hi))%N.

Definition is_upper : ascii -> bool := in_range 65 90.
Definition is_lower : ascii -> bool := in_range 97 122.
Definition is_digit : ascii -> bool := in_range 48 57.

(** [\w] of [re] on ASCII text. *)
Definition is_word (c : ascii) : bool :=
  is_upper c || is_lower c || is_digit c || (code c =? 95)%N.

(** [\s] of [re], which is also what [str.split] cuts at. *)
Definition is_space (c : ascii) : bool :=
  in_range 9 13 c || in_range 28 32 c.

Definition lower_char (c : ascii) : ascii :=
  if is_upper c then ascii_of_N (code c + 32) else c.

Fixpoint map_chars (f : ascii -> ascii) (s : string) : string :=
  match s with
  | EmptyString => EmptyString
  | String c r => String (f c) (map_chars f r)
  end.

(** [s.lower()] *)
Definition lower : string -> string := map_chars lower_char.

(** [s.replace(a, b)] for one-character [a] and [b]. *)
Definition replace_char (a b : ascii) : string -> string :=
  map_chars (fun c => if Ascii.eqb c a then b else c).

(** [needle in hay] on strings. *)
Fixpoint contains (needle hay : string) : bool :=
  if String.prefix needle hay then true
  else match hay with
       | EmptyString => false
       | String _ r => contains needle r
       end.

(** [w in ws] on a list (or a set) of strings. *)
Definition mem (w : string) (ws : list string) : bool :=
  existsb (String.eqb w) ws.

(** [s.split()]: maximal runs of non-space characters. [cur] is the run
    being read, last character first. *)
Fixpoint split_from (cur : list ascii) (s : string) : list string :=
  match s with
  | EmptyString =>
      match cur with
      | [] => []
      | _ => [string_of_list_ascii (rev cur)]
      end
  | String c r =>
      if is_space c then
        match cur with
        | [] => split_from [] r
        | _ => string_of_list_ascii (rev cur) :: split_from [] r
        end
      else split_from (c :: cur) r
  end.

Definition split : string -> list string := split_from [].

(** [sep.join(parts)] *)
Fixpoint join (sep : string) (parts : list string) : string :=
  match parts with
  | [] => ""
  | [p] => p
  | p :: rest => p ++ sep ++ join sep rest
  end.

(** [str(n)] for an [int]. *)
Definition of_Z (n : Z) : string := NilZero.string_of_int (Z.to_int n).

(** *** The pattern [\b term \b] *)

Definition word_side (c : option ascii) : bool :=
  match c with
  | Some x => is_word x
  | None => false
  end.

(** [\b] between the character [before] and the character [after]
    (either may be missing, at an end of the text). *)
Definition boundary (before after : option ascii) : bool :=
  xorb (word_side before) (word_side after).

Definition head_char (s : string) : option ascii :=
  match s with
  | EmptyString => None
  | String c _ => Some c
  end.

(** Reads [term] off the front of [s]; gives the last character read
    (or [before] when [term] is empty) and what is left of [s]. *)
Fixpoint eat (before : option ascii) (term s : string)
  : option (option ascii * string) :=
  match term with
  | EmptyString => Some (before, s)
  | String t term' =>
      match s with
      | EmptyString => None
      | String c s' => if Ascii.eqb t c then eat (Some c) term' s' else None
      end
  end.

Definition bounded_match_here (before : option ascii) (term s : string) : bool :=
  boundary before (head_char s) &&
  match eat before term s with
  | Some (last, rest) => boundary last (head_char rest)
  | None => false
  end.

(** [re.search(r'\b' + re.escape(term) + r'\b', s)] finds a match, where
    [before] is the character in front of [s]. *)
Fixpoint bounded_search (before : option ascii) (term s : string) : bool :=
  bounded_match_here before term s ||
  match s with
  | EmptyString => false
  | String c r => bounded_search (Some c) term r
  end.

End Text.

(** ** Data model *)

Record Agent := mkAgent {
  agent_id : string;
  name : string;
  skills : list (string * Z);
  current_load : Z;
  availability_status : string;
  experience_level : Z
}.

Record Ticket := mkTicket {
  ticket_id : string;
  title : string;
  description : string
}.

Record Assignment := mkAssignment {
  a_ticket_id : string;
  a_title : string;
  assigned_agent_id : string;
  rationale : string
}.

Record ScoreDetail := mkDetail {
  skill_score : R;
  workload_score : R;
  experience_score : R;
  ticket_priority : R;
  matched_skills : list string;
  current_assignments : Z;
  skill_penalty : R;
  composite_score : R
}.

(** [agent['skills'][skill]]; a key that is absent raises [KeyError]. *)
Fixpoint skill_level_of (sk : list (string * Z)) (skill : string) : option Z :=
  match sk with
  | [] => None
  | (k, v) :: rest => if String.eqb k skill then Some v else skill_level_of rest skill
  end.

(** ** Keyword extraction *)

(** [f"{ticket['title']} {ticket['description']}".lower()] *)
Definition ticket_text (t : Ticket) : string :=
  Text.lower (title t ++ " " ++ description t).

Definition stop_words : list string :=
  ["the"; "a"; "an"; "and"; "or"; "but"; "in"; "on"; "at"; "to"; "for"; "of";
   "with"; "by"; "is"; "are"; "was"; "were"; "be"; "been"; "have"; "has";
   "had"; "do"; "does"; "did"; "will"; "would"; "could"; "should"; "may";
   "might"; "must"; "can"; "this"; "that"; "these"; "those"; "we"; "they";
   "it"; "he"; "she"; "you"; "i"; "we"; "our"; "their"; "his"; "her"; "your";
   "my"].

(** [re.sub(r'[^\w\s]', ' ', text)] *)
Definition strip_punctuation : string -> string :=
  Text.map_chars (fun c => if Text.is_word c || Text.is_space c then c else " "%char).

Definition extract_keywords_from_ticket (t : Ticket) : list string :=
  let words := Text.split (strip_punctuation (ticket_text t)) in
  List.filter (fun w => (2 <? String.length w)%nat && negb (Text.mem w stop_words)) words.

Definition has_domain_term (text : string) (terms : list string) : bool :=
  existsb (fun term => Text.bounded_search None term text) terms.

(** ** Skill lexicon *)

Definition skill_keywords : list (string * list string) :=
  [("Networking", ["network"; "connectivity"; "connection"; "internet"; "lan"; "wan"]);
   ("VPN_Troubleshooting", ["vpn"; "remote"; "tunnel"; "authentication"; "dropped"; "disconnection"]);
   ("Network_Security", ["security"; "firewall"; "intrusion"; "attack"; "breach"]);
   ("Network_Monitoring", ["monitoring"; "performance"; "bandwidth"; "latency"]);
   ("Switch_Configuration", ["switch"; "vlan"; "port"; "configuration"]);
   ("Routing_Protocols", ["routing"; "protocol"; "gateway"; "route"]);
   ("Cisco_IOS", ["cisco"; "ios"; "router"; "switch"]);
   ("DNS_Configuration", ["dns"; "domain"; "resolution"; "nslookup"]);
   ("Network_Cabling", ["cable"; "ethernet"; "physical"; "wiring"]);
   ("Endpoint_Security", ["endpoint"; "malware"; "virus"; "protection"]);
   ("Antivirus_Malware", ["antivirus"; "malware"; "virus"; "threat"; "infection"]);
   ("Phishing_Analysis", ["phishing"; "email"; "suspicious"; "spam"; "impersonating"]);
   ("Security_Audits", ["audit"; "compliance"; "security"; "policy"]);
   ("SIEM_Logging", ["logging"; "log"; "siem"; "monitoring"; "events"]);
   ("Identity_Management", ["identity"; "access"; "permissions"; "group"]);
   ("Firewall_Configuration", ["firewall"; "port"; "rule"; "block"; "allow"]);
   ("Windows_Server_2022", ["windows"; "server"; "2022"; "domain"]);
   ("Active_Directory", ["active directory"; "ad"; "domain"; "login"; "authentication"; "account"; "user"; "sso"]);
   ("Microsoft_365", ["microsoft"; "365"; "office"; "outlook"; "email"; "teams"]);
   ("SharePoint_Online", ["sharepoint"; "collaboration"; "document"; "site"]);
   ("PowerShell_Scripting", ["powershell"; "script"; "automation"; "cmdlet"]);
   ("Endpoint_Management", ["endpoint"; "device"; "management"; "policy"]);
   ("Windows_OS", ["windows"; "desktop"; "workstation"; "pc"]);
   ("Hardware_Diagnostics", ["hardware"; "diagnostic"; "component"; "failure"; "repair"]);
   ("Laptop_Repair", ["laptop"; "notebook"; "portable"; "mobile"; "boot"; "repair"]);
   ("Printer_Troubleshooting", ["printer"; "print"; "queue"; "toner"; "paper"]);
   ("Database_SQL", ["database"; "sql"; "query"; "table"; "performance"; "slow"]);
   ("ETL_Processes", ["etl"; "data"; "extract"; "transform"; "load"]);
   ("Data_Warehousing", ["warehouse"; "data"; "analytics"; "reporting"]);
   ("PowerBI_Tableau", ["powerbi"; "tableau"; "visualization"; "dashboard"]);
   ("Cloud_AWS", ["aws"; "amazon"; "cloud"; "ec2"; "s3"]);
   ("Cloud_Azure", ["azure"; "microsoft"; "cloud"; "app service"; "website"]);
   ("DevOps_CI_CD", ["devops"; "jenkins"; "ci"; "cd"; "deployment"; "build"]);
   ("Kubernetes_Docker", ["kubernetes"; "docker"; "container"; "orchestration"]);
   ("Linux_Administration", ["linux"; "unix"; "server"; "permission"; "chmod"; "directory"]);
   ("Mac_OS", ["mac"; "macos"; "apple"; "macbook"; "samba"]);
   ("Python_Scripting", ["python"; "script"; "automation"; "code"]);
   ("SaaS_Integrations", ["saas"; "integration"; "api"; "third-party"]);
   ("API_Troubleshooting", ["api"; "rest"; "web service"; "integration"]);
   ("Web_Server_Apache_Nginx", ["web server"; "apache"; "nginx"; "http"]);
   ("SSL_Certificates", ["ssl"; "certificate"; "https"; "encryption"]);
   ("Voice_VoIP", ["voice"; "voip"; "phone"; "calling"; "sip"]);
   ("Virtualization_VMware", ["vmware"; "virtual"; "vm"; "hypervisor"]);
   ("Software_Licensing", ["license"; "software"; "activation"; "key"])].

(** [self.skill_keywords.get(skill, [])] *)
Fixpoint keywords_get (table : list (string * list string)) (skill : string)
  : list string :=
  match table with
  | [] => []
  | (k, v) :: rest => if String.eqb k skill then v else keywords_get rest skill
  end.

(** ** Skill match scorer *)

Record DomainFlags := mkFlags {
  is_linux_ticket : bool;
  is_windows_ticket : bool;
  is_mac_ticket : bool;
  is_security_ticket : bool;
  is_hardware_ticket : bool;
  is_network_ticket : bool;
  is_database_ticket : bool;
  is_cloud_ticket : bool
}.

Definition domain_flags (text : string) : DomainFlags :=
  {| is_linux_ticket := has_domain_term text ["linux"; "unix"; "chmod"; "directory permissions"];
     is_windows_ticket := has_domain_term text ["windows"; "active directory"; "outlook"; "microsoft"];
     is_mac_ticket := has_domain_term text ["mac"; "macos"; "macbook"; "samba"];
     is_security_ticket := has_domain_term text ["security"; "phishing"; "attack"; "breach"; "locked"; "suspicious"];
     is_hardware_ticket := has_domain_term text ["laptop"; "hardware"; "boot"; "printer"; "diagnostic"];
     is_network_ticket := has_domain_term text ["network"; "vpn"; "connection"; "firewall"; "dns"];
     is_database_ticket := has_domain_term text ["database"; "sql"; "query"; "performance"; "slow"];
     is_cloud_ticket := has_domain_term text ["azure"; "aws"; "cloud"; "website"; "app service"] |}.

(** [any(term in skill for term in terms)] *)
Definition any_in (terms : list string) (skill : string) : bool :=
  existsb (fun term => Text.contains term skill) terms.

Definition windows_terms : list string := ["Windows"; "Active_Directory"; "Microsoft"].

(** The [if]/[elif] chain that sets [domain_multiplier]; [1.0] when no
    branch fires. *)
Definition domain_multiplier (fl : DomainFlags) (skill : string) : R :=
  if Text.contains "Linux" skill && is_linux_ticket fl then 2.0
  else if Text.contains "Linux" skill && is_windows_ticket fl then 0.3
  else if any_in windows_terms skill && is_windows_ticket fl then 2.0
  else if any_in windows_terms skill && is_linux_ticket fl then 0.3
  else if Text.contains "Mac" skill && is_mac_ticket fl then 2.0
  else if any_in ["Security"; "Phishing"; "Antivirus"; "Firewall"] skill
          && is_security_ticket fl then 1.8
  else if any_in ["Hardware"; "Laptop"; "Printer"] skill
          && is_hardware_ticket fl then 1.8
  else if any_in ["Network"; "VPN"; "DNS"; "Routing"] skill
          && is_network_ticket fl then 1.8
  else if Text.contains "Database" skill && is_database_ticket fl then 2.0
  else if any_in ["Cloud"; "Azure"; "AWS"; "DevOps"] skill
          && is_cloud_ticket fl then 1.8
  else 1.0.

(** The three loops that build the integer [skill_score] of one skill. *)
Definition phrase_hits (text : string) (kws : list string) (start : Z) : Z :=
  fold_left (fun acc keyword =>
               if Text.contains keyword text then (acc + 3)%Z else acc)
            kws start.

Definition token_hits (ticket_keywords kws : list string) (start : Z) : Z :=
  fold_left (fun acc keyword =>
     fold_left (fun acc' ticket_keyword =>
        if String.eqb keyword ticket_keyword then (acc' + 2)%Z
        else if Text.contains keyword ticket_keyword
                || Text.contains ticket_keyword keyword then (acc' + 1)%Z
        else acc')
       ticket_keywords acc)
    kws start.

Definition skill_name_words (skill : string) : list string :=
  Text.split (Text.replace_char "_" " " (Text.lower skill)).

Definition name_hits (ticket_keywords : list string) (skill : string) (start : Z) : Z :=
  fold_left (fun acc skill_word =>
               if Text.mem skill_word ticket_keywords then (acc + 2)%Z else acc)
            (skill_name_words skill) start.

Definition raw_skill_score (text : string) (ticket_keywords : list string)
    (skill : string) : Z :=
  let kws := keywords_get skill_keywords skill in
  name_hits ticket_keywords skill
    (token_hits ticket_keywords kws (phrase_hits text kws 0%Z)).

(** [skill_score * skill_level * domain_multiplier] *)
Definition weighted_score (fl : DomainFlags) (skill : string)
    (raw level : Z) : R :=
  IZR (raw * level) * domain_multiplier fl skill.

(** One turn of the loop over [agent['skills'].items()], on the pair
    [(total_score, matched_skills)]. *)
Definition skill_step (text : string) (ticket_keywords : list string)
    (fl : DomainFlags) (st : R * list string) (entry : string * Z)
  : R * list string :=
  let '(total_score, matched) := st in
  let '(skill, level) := entry in
  let raw := raw_skill_score text ticket_keywords skill in
  if (0 <? raw)%Z
  then (total_score + weighted_score fl skill raw level, (matched ++ [skill])%list)
  else (total_score, matched).

Definition calculate_skill_match_score (t : Ticket) (a : Agent)
  : R * list string :=
  let ticket_keywords := extract_keywords_from_ticket t in
  let text := ticket_text t in
  let fl := domain_flags text in
  let '(total_score, matched) :=
    fold_left (skill_step text ticket_keywords fl) (skills a) (0, []) in
  let normalized_score :=
    if (0 <? List.length (skills a))%nat
    then total_score / sqrt (INR (List.length (skills a)))
    else 0 in
  (normalized_score, matched).

(** ** Workload, experience and priority scorers *)

Definition max_reasonable_load : Z := 8.

Definition availability_factor (a : Agent) : R :=
  if String.eqb (availability_status a) "Available" then 1.0 else 0.2.

Definition load_score (total_load : Z) : R :=
  if (max_reasonable_load <=? total_load)%Z then 0.1
  else exp (- (IZR total_load / 3.0)).

Definition calculate_workload_score (a : Agent) (assignments_so_far : Z) : R :=
  let total_load := (current_load a + assignments_so_far)%Z in
  load_score total_load * availability_factor a.

Definition max_experience : Z := 15.

Definition calculate_experience_score (a : Agent) : R :=
  IZR (Z.min (experience_level a) max_experience) / IZR max_experience.

Definition high_priority_keywords : list string :=
  ["critical"; "urgent"; "emergency"; "down"; "outage"; "breach"; "security";
   "production"; "business-critical"; "attack"; "locked"; "unreachable";
   "slow performance"; "phishing"].

Definition medium_priority_keywords : list string :=
  ["unable"; "error"; "problem"; "issue"; "failed"; "not working";
   "access denied"; "boot"; "laptop"].

(** [keyword in title_lower or keyword in description_lower] *)
Definition mentions (t : Ticket) (keyword : string) : bool :=
  Text.contains keyword (Text.lower (title t))
  || Text.contains keyword (Text.lower (description t)).

(** A loop [for keyword in kws: if ...: priority_score += step]. *)
Definition bump (t : Ticket) (step : R) (kws : list string) (start : R) : R :=
  fold_left (fun acc keyword => if mentions t keyword then acc + step else acc)
            kws start.

Definition calculate_ticket_priority (t : Ticket) : R :=
  let priority_score :=
    bump t 1.0 medium_priority_keywords
      (bump t 2.0 high_priority_keywords 1.0) in
  Rmin priority_score 5.0.

(** ** Composite scorer *)

Definition skill_threshold : R := 5.0.

Definition penalty_for (skill : R) : R :=
  if Rlt_dec skill skill_threshold then 0.3 else 1.0.

Definition calculate_composite_score_with_fairness
    (t : Ticket) (a : Agent) (assignments_so_far : Z) : R * ScoreDetail :=
  let '(skill, matched) := calculate_skill_match_score t a in
  let workload := calculate_workload_score a assignments_so_far in
  let experience := calculate_experience_score a in
  let priority := calculate_ticket_priority t in
  let penalty := penalty_for skill in
  let composite :=
    (skill * 0.6 + workload * 0.3 + experience * 0.1) * priority * penalty in
  (composite,
   {| skill_score := skill;
      workload_score := workload;
      experience_score := experience;
      ticket_priority := priority;
      matched_skills := matched;
      current_assignments := assignments_so_far;
      skill_penalty := penalty;
      composite_score := composite |}).

(** ** Rationale text *)

(** [f"'{skill_display}' ({skill_level})"]. The skill comes from
    [matched_skills], whose entries are keys of [agent['skills']], so the
    lookup finds it; [0] stands for the [KeyError] that cannot happen. *)
Definition skill_phrase (a : Agent) (skill : string) : string :=
  let level := default 0%Z (skill_level_of (skills a) skill) in
  "'" ++ Text.replace_char "_" " " skill ++ "' (" ++ Text.of_Z level ++ ")".

Definition _generate_rationale (t : Ticket) (a : Agent) (d : ScoreDetail) : string :=
  let top_skills := map (skill_phrase a) (firstn 3 (matched_skills d)) in
  let parts0 := ["Assigned to " ++ name a ++ " (" ++ agent_id a ++ ")"] in
  let parts1 :=
    match top_skills with
    | [] => parts0
    | _ => (parts0 ++ [("based on strong skills in " ++ Text.join " and " top_skills)%string])%list
    end in
  let parts2 :=
    if (current_load a <=? 2)%Z then (parts1 ++ ["and low current workload"])%list
    else if (current_load a <=? 4)%Z then (parts1 ++ ["and moderate workload"])%list
    else parts1 in
  let parts3 :=
    if (9 <=? experience_level a)%Z then (parts2 ++ ["with extensive experience"])%list
    else if (7 <=? experience_level a)%Z then (parts2 ++ ["with solid experience"])%list
    else parts2 in
  Text.join ", " parts3 ++ ".".

(** ** Greedy allocator *)

(** [sorted(xs, key=key, reverse=True)]: descending by key, and stable, so
    elements with equal keys keep the order they had in [xs]. The head of
    the input is placed in front of every element whose key is not
    strictly greater. *)
Section Sorted.

Context {A : Type} (key : A -> R).

Fixpoint place (x : A) (l : list A) : list A :=
  match l with
  | [] => [x]
  | y :: r => if Rlt_dec (key x) (key y) then y :: place x r else x :: l
  end.

Fixpoint sorted_reverse (xs : list A) : list A :=
  match xs with
  | [] => []
  | x :: r => place x (sorted_reverse r)
  end.

End Sorted.

(** The three locals of the inner loop. *)
Record Best := mkBest {
  best_agent : option Agent;
  best_score : R;
  best_details : option ScoreDetail
}.

Definition no_best : Best :=
  {| best_agent := None; best_score := -1; best_details := None |}.

Definition is_available (a : Agent) : bool :=
  String.eqb (availability_status a) "Available".

(** [agent_assignment_counts[agent['agent_id']]]. Every agent's id is a key
    from the start (see [counter_present]); [0] stands for the [KeyError]
    that cannot happen. *)
Definition count_of (counts : gmap string Z) (a : Agent) : Z :=
  default 0%Z (counts !! agent_id a).

(** The body of [for agent in self.agents]. *)
Definition consider (t : Ticket) (counts : gmap string Z) (b : Best) (a : Agent)
  : Best :=
  if negb (is_available a) then b
  else
    let '(score, details) :=
      calculate_composite_score_with_fairness t a (count_of counts a) in
    if Rlt_dec (best_score b) score
    then {| best_agent := Some a; best_score := score; best_details := Some details |}
    else b.

Definition select_best (t : Ticket) (agents : list Agent) (counts : gmap string Z)
  : Best :=
  fold_left (consider t counts) agents no_best.

(** What the outer loop carries: the assignments, the counters and the
    lines printed so far. *)
Record Alloc := mkAlloc {
  assignments : list Assignment;
  counts : gmap string Z;
  printed : list string
}.

Definition warning_line (t : Ticket) : string :=
  "Warning: Could not assign ticket " ++ ticket_id t ++ " - no available agents".

(** The body of [for ticket in sorted_tickets]. *)
Definition allocate (agents : list Agent) (st : Alloc) (t : Ticket) : Alloc :=
  let b := select_best t agents (counts st) in
  match best_agent b, best_details b with
  | Some a, Some d =>
      {| assignments :=
           (assignments st ++
            [ {| a_ticket_id := ticket_id t;
                 a_title := title t;
                 assigned_agent_id := agent_id a;
                 rationale := _generate_rationale t a d |} ])%list;
         counts := <[agent_id a := (count_of (counts st) a + 1)%Z]> (counts st);
         printed := printed st |}
  | _, _ =>
      {| assignments := assignments st;
         counts := counts st;
         printed := (printed st ++ [warning_line t])%list |}
  end.

Definition initial_counts (agents : list Agent) : gmap string Z :=
  list_to_map (map (fun a => (agent_id a, 0%Z)) agents).

Definition initial_alloc (agents : list Agent) : Alloc :=
  {| assignments := []; counts := initial_counts agents; printed := [] |}.

Definition sorted_tickets (tickets : list Ticket) : list Ticket :=
  sorted_reverse calculate_ticket_priority tickets.

Definition run_allocator (agents : list Agent) (tickets : list Ticket) : Alloc :=
  fold_left (allocate agents) (sorted_tickets tickets) (initial_alloc agents).

Definition assign_tickets (agents : list Agent) (tickets : list Ticket)
  : list Assignment :=
  assignments (run_allocator agents tickets).

(** ** Summary report *)

(** The loop of [_display_summary] that recounts the assignments per agent
    id in a [defaultdict(int)]: a missing key reads as 0. *)
Definition recount (asgs : list Assignment) : gmap string Z :=
  fold_left (fun m asg =>
               <[assigned_agent_id asg :=
                   (default 0%Z (m !! assigned_agent_id asg) + 1)%Z]> m)
            asgs ∅.

Definition new_assignments (asgs : list Assignment) (a : Agent) : Z :=
  default 0%Z (recount asgs !! agent_id a).

(** [f"  {name} ({agent_id}): {new_assignments} new tickets, {total_load} total load"] *)
Definition workload_line (a : Agent) (new : Z) : string :=
  "  " ++ name a ++ " (" ++ agent_id a ++ "): " ++ Text.of_Z new
  ++ " new tickets, " ++ Text.of_Z (current_load a + new) ++ " total load".

Definition newline : string := String (ascii_of_N 10) "".

Fixpoint repeated (s : string) (n : nat) : string :=
  match n with
  | O => ""
  | S k => s ++ repeated s k
  end.

(** [len(assignments) / len(self.tickets) * 100]; [None] is the
    [ZeroDivisionError] of an empty ticket list. *)
Definition success_rate (tickets : list Ticket) (asgs : list Assignment) : option R :=
  match tickets with
  | [] => None
  | _ => Some (INR (List.length asgs) / INR (List.length tickets) * 100)
  end.

(** The lines [_display_summary] prints before its last one, and the rate
    its last line reports (formatted there to one decimal, which is not
    modelled); the rate is computed, and may raise, after the other lines
    are out. *)
Definition _display_summary (agents : list Agent) (tickets : list Ticket)
    (asgs : list Assignment) : list string * option R :=
  ((([(newline ++ repeated "=" 50)%string;
       "ASSIGNMENT SUMMARY";
       repeated "=" 50;
       (newline ++ "Agent Workload Distribution:")%string]
      ++ map (fun a => workload_line a (new_assignments asgs a)) agents)
     ++ [(newline ++ "Total tickets processed: "
            ++ Text.of_Z (Z.of_nat (List.length tickets)))%string;
         ("Total tickets assigned: "
            ++ Text.of_Z (Z.of_nat (List.length asgs)))%string])%list,
   success_rate tickets asgs).


(** * Vocabulary of the properties *)

(** ** Scores *)

(** The phrases of [kws] that the ticket mentions; each phrase of the list
    is tested once. *)
Definition hits (t : Ticket) (kws : list string) : nat :=
  List.length (List.filter (mentions t) kws).

Definition priority_before_cap (t : Ticket) : R :=
  1 + 2 * INR (hits t high_priority_keywords)
    + 1 * INR (hits t medium_priority_keywords).

(** The composite score with the penalty factor left out. *)
Definition unpenalised_score (t : Ticket) (a : Agent) (n : Z) : R :=
  (fst (calculate_skill_match_score t a) * 0.6
   + calculate_workload_score a n * 0.3
   + calculate_experience_score a * 0.1)
  * calculate_ticket_priority t.

Definition composite_of (t : Ticket) (a : Agent) (n : Z) : R :=
  fst (calculate_composite_score_with_fairness t a n).

Definition details_of (t : Ticket) (a : Agent) (n : Z) : ScoreDetail :=
  snd (calculate_composite_score_with_fairness t a n).

(** Whether the skill loop records a skill entry as matched, and what the
    entry then adds to [total_score]. *)
Definition is_matched (text : string) (ticket_keywords : list string)
    (entry : string * Z) : bool :=
  (0 <? raw_skill_score text ticket_keywords (fst entry))%Z.

Definition contribution (text : string) (ticket_keywords : list string)
    (fl : DomainFlags) (entry : string * Z) : R :=
  weighted_score fl (fst entry)
    (raw_skill_score text ticket_keywords (fst entry)) (snd entry).

(** ** The choice of an agent *)

(** The composite score and the details the inner loop computes for an
    agent, with the counter the agent has when the ticket is decided. *)
Definition score_at (t : Ticket) (cs : gmap string Z) (a : Agent) : R :=
  composite_of t a (count_of cs a).

Definition details_at (t : Ticket) (cs : gmap string Z) (a : Agent) : ScoreDetail :=
  details_of t a (count_of cs a).

(** [a] is an "Available" agent of the list whose score is strictly
    above that of every "Available" agent in front of it and at least
    that of every "Available" agent behind it. *)
Definition first_maximiser (t : Ticket) (cs : gmap string Z)
    (agents : list Agent) (a : Agent) : Prop :=
  exists front back : list Agent,
    agents = (front ++ a :: back)%list /\
    is_available a = true /\
    (forall x, In x front -> is_available x = true -> score_at t cs x < score_at t cs a) /\
    (forall x, In x back -> is_available x = true -> score_at t cs x <= score_at t cs a).

(** What the three locals of the inner loop hold once the agents of
    [seen] are done. *)
Definition best_after (t : Ticket) (cs : gmap string Z)
    (seen : list Agent) (b : Best) : Prop :=
  match best_agent b with
  | Some a =>
      first_maximiser t cs seen a /\ -1 < score_at t cs a /\
      best_score b = score_at t cs a /\ best_details b = Some (details_at t cs a)
  | None =>
      best_details b = None /\ best_score b = -1 /\
      forall x, In x seen -> is_available x = true -> score_at t cs x <= -1
  end.

(** ** One ticket *)

Definition assignment_for (t : Ticket) (a : Agent) (d : ScoreDetail) : Assignment :=
  {| a_ticket_id := ticket_id t; a_title := title t;
     assigned_agent_id := agent_id a; rationale := _generate_rationale t a d |}.

(** The state after the ticket went to [a] with details [d], and after the
    ticket was skipped. *)
Definition commit (st : Alloc) (t : Ticket) (a : Agent) (d : ScoreDetail) : Alloc :=
  {| assignments := (assignments st ++ [assignment_for t a d])%list;
     counts := <[agent_id a := (count_of (counts st) a + 1)%Z]> (counts st);
     printed := printed st |}.

Definition skipped (st : Alloc) (t : Ticket) : Alloc :=
  {| assignments := assignments st;
     counts := counts st;
     printed := (printed st ++ [warning_line t])%list |}.

(** The agent the inner loop ends with, if any. *)
Definition chosen (agents : list Agent) (st : Alloc) (t : Ticket) : option Agent :=
  best_agent (select_best t agents (counts st)).

Definition assigned_to (st : Alloc) (t : Ticket) (a : Agent) : Alloc :=
  commit st t a (details_at t (counts st) a).

Definition counters_cover (agents : list Agent) (st : Alloc) : Prop :=
  forall a, In a agents -> is_Some (counts st !! agent_id a).

(** ** Order of a list by key *)

Definition descending {A : Type} (key : A -> R) : list A -> Prop :=
  StronglySorted (fun x y => key y <= key x).

(** The elements of a list whose key is exactly [p], in order. *)
Definition with_key {A : Type} (key : A -> R) (p : R) (l : list A) : list A :=
  List.filter (fun x => if Req_dec_T (key x) p then true else false) l.

(** ** Runs of the allocator *)

(** An order of visit the specification allows for a ticket list:
    priorities never increase along it and, for every priority, the
    tickets of that priority come in the order they have in the input. *)
Definition stable_descending (tickets visited : list Ticket) : Prop :=
  descending calculate_ticket_priority visited /\
  forall p : R,
    with_key calculate_ticket_priority p visited
    = with_key calculate_ticket_priority p tickets.

(** A decision the specification allows for one ticket: the ticket goes to
    an agent that is a first maximiser among the "Available" agents and
    scores above the initial [best_score], or it is skipped when no
    "Available" agent scores above it. Nothing here says how ties are
    looked for, only which agent may win. *)
Inductive decides (agents : list Agent) (st : Alloc) (t : Ticket) : Alloc -> Prop :=
| decides_assign (a : Agent) :
    first_maximiser t (counts st) agents a ->
    -1 < score_at t (counts st) a ->
    decides agents st t (commit st t a (details_at t (counts st) a))
| decides_skip :
    (forall x, In x agents -> is_available x = true ->
               score_at t (counts st) x <= -1) ->
    decides agents st t (skipped st t).

(** Allowed decisions taken one after the other along an order of visit,
    each from the state the one before it left. *)
Inductive follows (agents : list Agent) : list Ticket -> Alloc -> Alloc -> Prop :=
| follows_nil (st : Alloc) :
    follows agents [] st st
| follows_cons (t : Ticket) (rest : list Ticket) (st mid out : Alloc) :
    decides agents st t mid ->
    follows agents rest mid out ->
    follows agents (t :: rest) st out.

(** A run on a batch: some allowed order of visit, and an allowed decision
    for each ticket in that order. *)
Definition specified_run (agents : list Agent) (tickets : list Ticket) (out : Alloc)
  : Prop :=
  exists visited : list Ticket,
    stable_descending tickets visited /\
    follows agents visited (initial_alloc agents) out.


(** ** Sample inputs *)

Definition idle_agent : Agent :=
  {| agent_id := "A1"; name := "Al"; skills := [("Mac_OS", 4%Z)];
     current_load := 0; availability_status := "Available";
     experience_level := 2 |}.

Definition busy_agent : Agent :=
  {| agent_id := "A2"; name := "Bo"; skills := [];
     current_load := 8; availability_status := "Busy"; experience_level := 3 |}.

Definition loaded_agent : Agent :=
  {| agent_id := "A4"; name := "Ed"; skills := [];
     current_load := 7; availability_status := "Available";
     experience_level := 5 |}.

Definition novice_in_debt : Agent :=
  {| agent_id := "A3"; name := "Cy"; skills := [];
     current_load := 0; availability_status := "Available";
     experience_level := -15 |}.

Definition deep_in_debt : Agent :=
  {| agent_id := "A9"; name := "Di"; skills := [];
     current_load := 0; availability_status := "Available";
     experience_level := -600 |}.

Definition deeper_in_debt : Agent :=
  {| agent_id := "A8"; name := "Flo"; skills := [];
     current_load := 0; availability_status := "Available";
     experience_level := -900 |}.

Definition vpn_agent : Agent :=
  {| agent_id := "A"; name := "Agent A";
     skills := [("VPN_Troubleshooting", 8%Z); ("Mac_OS", 5%Z)];
     current_load := 1; availability_status := "Available";
     experience_level := 10 |}.

Definition vpn_specialist : Agent :=
  {| agent_id := "A"; name := "Agent A";
     skills := [("VPN_Troubleshooting", 8%Z)];
     current_load := 1; availability_status := "Available";
     experience_level := 10 |}.

Definition windows_generalist : Agent :=
  {| agent_id := "B"; name := "Agent B";
     skills := [("Windows_OS", 9%Z)];
     current_load := 0; availability_status := "Available";
     experience_level := 10 |}.

Definition quiet_ticket : Ticket :=
  {| ticket_id := "T1"; title := "Printer tray"; description := "Paper jam" |}.

Definition outage_ticket : Ticket :=
  {| ticket_id := "T2"; title := "Critical outage";
     description := "Login failed with an error" |}.

Definition vpn_ticket : Ticket :=
  {| ticket_id := "T3"; title := "VPN connection dropped constantly";
     description := "" |}.

Definition two_high_ticket : Ticket :=
  {| ticket_id := "T5"; title := "critical urgent"; description := "" |}.

Definition three_medium_ticket : Ticket :=
  {| ticket_id := "T6"; title := "unable error problem"; description := "" |}.

Definition shouted_ticket : Ticket :=
  {| ticket_id := "T4"; title := "CRITICAL Outage";
     description := "LOGIN FAILED with an Error" |}.

Definition rested_twin : Agent :=
  {| agent_id := "A5"; name := "Gil"; skills := [("Networking", 6%Z)];
     current_load := 0; availability_status := "Available";
     experience_level := 8 |}.

Definition tired_twin : Agent :=
  {| agent_id := "A6"; name := "Hal"; skills := [("Networking", 6%Z)];
     current_load := 6; availability_status := "Available";
     experience_level := 8 |}.


(** ** Vocabulary of the further properties *)

(** A character a keyword is made of: a lower-case letter, a digit or the
    underscore. *)
Definition keyword_char (c : ascii) : bool :=
  Text.is_lower c || Text.is_digit c || (Text.code c =? 95)%N.

Fixpoint all_chars (p : ascii -> bool) (s : string) : bool :=
  match s with
  | EmptyString => true
  | String c r => p c && all_chars p r
  end.

(** A text of ASCII characters only (code points below 128), the texts
    on which the character classes of [Text] are those of Python. *)
Definition ascii_text (s : string) : bool :=
  all_chars (fun c => (Text.code c <? 128)%N) s.

(** What [str.lower] followed by the punctuation filter does to one
    character. *)
Definition clean_char (c : ascii) : ascii :=
  let l := Text.lower_char c in
  if Text.is_word l || Text.is_space l then l else " "%char.

Definition same_up_to_case (t t' : Ticket) : Prop :=
  Text.lower (title t) = Text.lower (title t') /\
  Text.lower (description t) = Text.lower (description t').

Fixpoint last_char (s : string) : option ascii :=
  match s with
  | EmptyString => None
  | String c r =>
      match last_char r with
      | None => Some c
      | found => found
      end
  end.

(** The character in front of the position reached after reading [s],
    when [before] was in front of [s]. *)
Definition last_or (before : option ascii) (s : string) : option ascii :=
  match last_char s with
  | Some c => Some c
  | None => before
  end.

(** A term that begins and ends with a word character, as every domain
    term of the scorer does. *)
Definition word_term (term : string) : Prop :=
  Text.word_side (Text.head_char term) = true /\
  Text.word_side (last_char term) = true.

Definition no_domain_signal (fl : DomainFlags) : Prop :=
  is_linux_ticket fl = false /\ is_windows_ticket fl = false /\
  is_mac_ticket fl = false /\ is_security_ticket fl = false /\
  is_hardware_ticket fl = false /\ is_network_ticket fl = false /\
  is_database_ticket fl = false /\ is_cloud_ticket fl = false.

(** A Linux skill on a ticket that is Windows-flavoured and not
    Linux-flavoured, or a Windows skill that is not also a Linux skill on
    a ticket that is Linux-flavoured and not Windows-flavoured. *)
Definition opposing_platform (fl : DomainFlags) (skill : string) : Prop :=
  (Text.contains "Linux" skill = true /\
   is_linux_ticket fl = false /\ is_windows_ticket fl = true) \/
  (Text.contains "Linux" skill = false /\ any_in windows_terms skill = true /\
   is_linux_ticket fl = true /\ is_windows_ticket fl = false).

Definition sumZ (l : list Z) : Z := fold_right Z.add 0%Z l.

(** What one lexicon keyword, one pair of keywords and one word of the
    skill's name add to the raw score. *)
Definition phrase_gain (text keyword : string) : Z :=
  if Text.contains keyword text then 3%Z else 0%Z.

Definition pair_gain (keyword ticket_keyword : string) : Z :=
  if String.eqb keyword ticket_keyword then 2%Z
  else if Text.contains keyword ticket_keyword
          || Text.contains ticket_keyword keyword then 1%Z
  else 0%Z.

Definition name_gain (ticket_keywords : list string) (skill_word : string) : Z :=
  if Text.mem skill_word ticket_keywords then 2%Z else 0%Z.

Definition sound_levels (agents : list Agent) : Prop :=
  forall a, In a agents ->
    (forall skill level, In (skill, level) (skills a) -> (0 < level)%Z) /\
    (0 <= experience_level a)%Z.

(** The number of assignments that name the agent id [id]. *)
Definition assigned_count (asgs : list Assignment) (id : string) : Z :=
  Z.of_nat (List.length
              (List.filter (fun x => String.eqb (assigned_agent_id x) id) asgs)).

Definition is_agent_id (agents : list Agent) (id : string) : bool :=
  existsb (fun a => String.eqb (agent_id a) id) agents.

(** The counters hold, for the id of every agent, the number of
    assignments made to it so far, and nothing else. *)
Definition counters_count (agents : list Agent) (st : Alloc) : Prop :=
  forall id : string,
    counts st !! id =
      if is_agent_id agents id then Some (assigned_count (assignments st) id)
      else None.

Definition rationale_head (a : Agent) : string :=
  "Assigned to " ++ name a ++ " (" ++ agent_id a ++ ")".


(** * Properties *)

(** ** Workload scorer *)

Lemma availability_factor_cases (a : Agent) :
  (is_available a = true /\ availability_factor a = 1) \/
  (is_available a = false /\ availability_factor a = 0.2).
Proof.
  unfold availability_factor, is_available.
  destruct (String.eqb _ _); [left | right]; split; auto; lra.
Qed.

Lemma availability_factor_pos (a : Agent) : 0 < availability_factor a.
Proof. destruct (availability_factor_cases a) as [[_ ->] | [_ ->]]; lra. Qed.

Lemma load_score_pos (n : Z) : 0 < load_score n.
Proof.
  unfold load_score. destruct (_ <=? _)%Z; [lra | apply exp_pos].
Qed.

Lemma load_score_overloaded (n : Z) :
  (8 <= n)%Z -> load_score n = 0.1.
Proof.
  intros H. unfold load_score, max_reasonable_load.
  destruct (Z.leb_spec 8 n); [reflexivity | lia].
Qed.

Lemma load_score_decay (n : Z) :
  (n < 8)%Z -> load_score n = exp (- (IZR n / 3)).
Proof.
  intros H. unfold load_score, max_reasonable_load.
  destruct (Z.leb_spec 8 n); [lia | f_equal; lra].
Qed.

Lemma load_score_antitone_below (n m : Z) :
  (n <= m)%Z -> (m < 8)%Z -> load_score m <= load_score n.
Proof.
  intros Hnm Hm.
  rewrite !load_score_decay by lia.
  destruct (Z.eq_dec n m) as [-> | Hne]; [lra |].
  left. apply exp_increasing.
  assert (IZR n < IZR m) by (apply IZR_lt; lia). lra.
Qed.

Lemma workload_score_pos (a : Agent) (n : Z) : 0 < calculate_workload_score a n.
Proof.
  unfold calculate_workload_score.
  apply Rmult_lt_0_compat; [apply load_score_pos | apply availability_factor_pos].
Qed.

(** The floor is above the tail of the decay: [exp (-7/3)] is below 0.1, so
    the load score rises from total load 7 to total load 8. The bound comes
    from [1 + x <= exp x] at [x = 7/384], squared seven times. *)
Lemma exp_double (x : R) : exp (2 * x) = exp x * exp x.
Proof. replace (2 * x) with (x + x) by lra. apply exp_plus. Qed.

Lemma exp_7_3_above_10 : 10 < exp (7 / 3).
Proof.
  pose proof (exp_ineq1_le (7 / 384)) as H0.
  assert (H1 : 1.0367 <= exp (7 / 192)).
  { replace (7 / 192) with (2 * (7 / 384)) by lra. rewrite exp_double. nra. }
  assert (H2 : 1.0747 <= exp (7 / 96)).
  { replace (7 / 96) with (2 * (7 / 192)) by lra. rewrite exp_double. nra. }
  assert (H3 : 1.1549 <= exp (7 / 48)).
  { replace (7 / 48) with (2 * (7 / 96)) by lra. rewrite exp_double. nra. }
  assert (H4 : 1.3337 <= exp (7 / 24)).
  { replace (7 / 24) with (2 * (7 / 48)) by lra. rewrite exp_double. nra. }
  assert (H5 : 1.7787 <= exp (7 / 12)).
  { replace (7 / 12) with (2 * (7 / 24)) by lra. rewrite exp_double. nra. }
  assert (H6 : 3.1637 <= exp (7 / 6)).
  { replace (7 / 6) with (2 * (7 / 12)) by lra. rewrite exp_double. nra. }
  replace (7 / 3) with (2 * (7 / 6)) by lra. rewrite exp_double. nra.
Qed.

Lemma load_score_rises_at_threshold : load_score 7 < load_score 8.
Proof.
  rewrite (load_score_overloaded 8) by lia.
  rewrite (load_score_decay 7) by lia.
  rewrite exp_Ropp.
  pose proof exp_7_3_above_10 as H.
  assert (Hinv : / exp (7 / 3) < / 10).
  { apply Rinv_lt_contravar; [| exact H].
    apply Rmult_lt_0_compat; [lra | apply exp_pos]. }
  lra.
Qed.

Lemma load_score_floor_up_to_6 (n : Z) : (n <= 6)%Z -> 0.1 <= load_score n.
Proof.
  intros H. rewrite load_score_decay by lia.
  assert (Hn : IZR n <= 6) by (apply IZR_le; lia).
  assert (H2 : exp 2 <= 10).
  { replace 2 with (2 * 1) by lra. rewrite exp_double.
    pose proof exp_le_3. pose proof (exp_pos 1). nra. }
  assert (Hinv : / 10 <= / exp 2).
  { apply Rinv_le_contravar; [apply exp_pos | exact H2]. }
  assert (Hmono : exp (Ropp 2) <= exp (- (IZR n / 3))).
  { destruct (Req_dec (IZR n) 6) as [-> | Hne].
    - right. f_equal. lra.
    - left. apply exp_increasing. lra. }
  rewrite (exp_Ropp 2) in Hmono. lra.
Qed.

Lemma load_score_antitone (n m : Z) :
  (n <= m)%Z -> (n <> 7 \/ m < 8)%Z -> load_score m <= load_score n.
Proof.
  intros Hnm Hside.
  destruct (Z_lt_le_dec m 8) as [Hm | Hm].
  - now apply load_score_antitone_below.
  - rewrite (load_score_overloaded m) by exact Hm.
    destruct (Z_lt_le_dec n 8) as [Hn | Hn].
    + apply load_score_floor_up_to_6. lia.
    + rewrite (load_score_overloaded n) by exact Hn. lra.
Qed.

(** C1, as stated, fails: an agent whose status is not "Available" and
    whose total load is 8 scores 0.1 * 0.2, not 0.1; and an "Available"
    agent scores more at total load 8 than at total load 7. *)
Lemma workload_floor_depends_on_status :
  (8 <= current_load busy_agent + 0)%Z /\
  calculate_workload_score busy_agent 0 <> 0.1 /\
  calculate_workload_score loaded_agent 0 < calculate_workload_score loaded_agent 1.
Proof.
  split; [simpl; lia |]. split.
  - unfold calculate_workload_score.
    rewrite load_score_overloaded by (simpl; lia).
    unfold availability_factor. simpl. lra.
  - unfold calculate_workload_score.
    change (current_load loaded_agent + 0)%Z with 7%Z.
    change (current_load loaded_agent + 1)%Z with 8%Z.
    apply Rmult_lt_compat_r;
      [apply availability_factor_pos | apply load_score_rises_at_threshold].
Qed.

(** C1, amended: for every agent and in-batch counts [n <= m], the workload
    score at [m] is at most the score at [n], unless the total load goes
    from exactly 7 to 8 or more; and once the total load is at least 8 the
    score is exactly 0.1 times the availability factor, which is 0.1 for an
    agent whose status is "Available" and 0.1 * 0.2 for any other status. *)
Theorem workload_score_by_load (a : Agent) (n m : Z) :
  (n <= m)%Z ->
  ((current_load a + n <> 7 \/ current_load a + m < 8)%Z ->
     calculate_workload_score a m <= calculate_workload_score a n) /\
  ((8 <= current_load a + n)%Z ->
     calculate_workload_score a n = 0.1 * availability_factor a /\
     (availability_status a = "Available" -> calculate_workload_score a n = 0.1) /\
     (availability_status a <> "Available" ->
        calculate_workload_score a n = 0.1 * 0.2)).
Proof.
  intros Hnm. unfold calculate_workload_score. split.
  - intros Hside.
    apply Rmult_le_compat_r.
    + left. apply availability_factor_pos.
    + apply load_score_antitone; lia.
  - intros H8.
    rewrite load_score_overloaded by lia.
    split; [reflexivity |].
    unfold availability_factor. split; intros Hst.
    + rewrite Hst. simpl. lra.
    + apply String.eqb_neq in Hst. rewrite Hst. reflexivity.
Qed.

Lemma workload_score_by_load_witness :
  calculate_workload_score idle_agent 9 <= calculate_workload_score idle_agent 2 /\
  calculate_workload_score busy_agent 0 = 0.1 * 0.2.
Proof.
  split.
  - apply (workload_score_by_load idle_agent 2 9); [lia | left; simpl; lia].
  - apply (workload_score_by_load busy_agent 0 0); [lia | simpl; lia | discriminate].
Defined.

(** ** Experience scorer *)

Lemma experience_score_le_1 (a : Agent) : calculate_experience_score a <= 1.
Proof.
  unfold calculate_experience_score, max_experience.
  assert (IZR (Z.min (experience_level a) 15) <= 15) by (apply IZR_le; lia).
  lra.
Qed.

Lemma experience_score_nonneg (a : Agent) :
  (0 <= experience_level a)%Z -> 0 <= calculate_experience_score a.
Proof.
  intros H. unfold calculate_experience_score, max_experience.
  assert (0 <= IZR (Z.min (experience_level a) 15)) by (apply IZR_le; lia).
  lra.
Qed.

(** C6, as stated, fails: an experience level of -15 gives the score -1,
    outside [0, 1]. *)
Lemma experience_score_not_clamped_below :
  calculate_experience_score novice_in_debt = -1 /\
  ~ (0 <= calculate_experience_score novice_in_debt <= 1).
Proof.
  assert (E : calculate_experience_score novice_in_debt = -1).
  { unfold calculate_experience_score, max_experience, novice_in_debt.
    cbn [experience_level]. change (Z.min (-15) 15) with (-15)%Z. lra. }
  split; [exact E | rewrite E; lra].
Qed.

(** C6, amended: for every integer experience level the experience score is
    min(experience_level, 15) / 15; it never exceeds 1, and it is at least
    0 exactly when the experience level is at least 0 (only the ceiling is
    applied, there is no floor). *)
Theorem experience_score_ceiling_only (a : Agent) :
  calculate_experience_score a = IZR (Z.min (experience_level a) 15) / 15 /\
  calculate_experience_score a <= 1 /\
  (0 <= calculate_experience_score a <-> (0 <= experience_level a)%Z).
Proof.
  split; [reflexivity |]. split; [apply experience_score_le_1 |].
  split; [| apply experience_score_nonneg].
  intros H. unfold calculate_experience_score, max_experience in H.
  destruct (Z_lt_le_dec (experience_level a) 0) as [Hneg | ]; [| assumption].
  assert (IZR (Z.min (experience_level a) 15) <= -1) by (apply IZR_le; lia).
  lra.
Qed.

(** ** Priority scorer *)

Lemma urgency_phrases_distinct :
  NoDup high_priority_keywords /\ NoDup medium_priority_keywords.
Proof.
  split; compute_done.
Qed.

Lemma bump_hits (t : Ticket) (step : R) (kws : list string) (start : R) :
  bump t step kws start = start + step * INR (hits t kws).
Proof.
  unfold bump, hits. revert start.
  induction kws as [| k kws IH]; intros start.
  - simpl. lra.
  - cbn [fold_left List.filter]. destruct (mentions t k).
    + rewrite IH. cbn [List.length]. rewrite S_INR. lra.
    + apply IH.
Qed.

Lemma ticket_priority_formula (t : Ticket) :
  calculate_ticket_priority t = Rmin (priority_before_cap t) 5.
Proof.
  unfold calculate_ticket_priority, priority_before_cap.
  rewrite !bump_hits. f_equal; lra.
Qed.

Lemma priority_before_cap_ge_1 (t : Ticket) : 1 <= priority_before_cap t.
Proof.
  unfold priority_before_cap.
  pose proof (pos_INR (hits t high_priority_keywords)).
  pose proof (pos_INR (hits t medium_priority_keywords)).
  lra.
Qed.

Lemma ticket_priority_range (t : Ticket) : 1 <= calculate_ticket_priority t <= 5.
Proof.
  rewrite ticket_priority_formula. split.
  - apply Rmin_glb; [apply priority_before_cap_ge_1 | lra].
  - apply Rmin_r.
Qed.

Lemma hits_monotone (t t' : Ticket) (kws : list string) :
  (forall k, In k kws -> mentions t k = true -> mentions t' k = true) ->
  (hits t kws <= hits t' kws)%nat.
Proof.
  unfold hits. induction kws as [| k kws IH]; intros H; [reflexivity |].
  cbn [List.filter].
  assert (IH' : (List.length (List.filter (mentions t) kws)
                 <= List.length (List.filter (mentions t') kws))%nat).
  { apply IH. intros k' Hk'. apply H. now right. }
  destruct (mentions t k) eqn:E.
  - rewrite (H k (or_introl eq_refl) E). simpl. lia.
  - destruct (mentions t' k); simpl; lia.
Qed.

(** C4, as stated, fails: a ticket that mentions two urgency phrases, both
    of high urgency, has priority 5, and a ticket that mentions three,
    all of medium urgency, has priority 4: more matched phrases, lower
    priority. *)
Lemma priority_not_monotone_in_phrase_count :
  (hits two_high_ticket high_priority_keywords
   + hits two_high_ticket medium_priority_keywords = 2)%nat /\
  (hits three_medium_ticket high_priority_keywords
   + hits three_medium_ticket medium_priority_keywords = 3)%nat /\
  calculate_ticket_priority two_high_ticket = 5 /\
  calculate_ticket_priority three_medium_ticket = 4 /\
  calculate_ticket_priority three_medium_ticket
    < calculate_ticket_priority two_high_ticket.
Proof.
  assert (E2 : calculate_ticket_priority two_high_ticket = 5).
  { rewrite ticket_priority_formula. unfold priority_before_cap.
    replace (hits two_high_ticket high_priority_keywords) with 2%nat
      by (vm_compute; reflexivity).
    replace (hits two_high_ticket medium_priority_keywords) with 0%nat
      by (vm_compute; reflexivity).
    simpl INR. rewrite Rmin_right; lra. }
  assert (E3 : calculate_ticket_priority three_medium_ticket = 4).
  { rewrite ticket_priority_formula. unfold priority_before_cap.
    replace (hits three_medium_ticket high_priority_keywords) with 0%nat
      by (vm_compute; reflexivity).
    replace (hits three_medium_ticket medium_priority_keywords) with 3%nat
      by (vm_compute; reflexivity).
    simpl INR. rewrite Rmin_left; lra. }
  split; [vm_compute; reflexivity |]. split; [vm_compute; reflexivity |].
  split; [exact E2 |]. split; [exact E3 |]. rewrite E2, E3. lra.
Qed.

(** C4, amended: the priority of a ticket is min(1 + 2 h + 1 m, 5), with h
    the number of high-urgency phrases and m the number of medium-urgency
    phrases the ticket mentions, each phrase counted once; it lies in
    [1, 5]; it does not decrease when neither h nor m decreases, in
    particular when every urgency phrase the ticket mentions is still
    mentioned (it is not a function of h + m alone); and the priority the
    composite scorer records is this value whatever the agent and its
    in-batch count. *)
Theorem ticket_priority_spec (t : Ticket) :
  calculate_ticket_priority t =
    Rmin (1 + 2 * INR (hits t high_priority_keywords)
            + 1 * INR (hits t medium_priority_keywords)) 5 /\
  1 <= calculate_ticket_priority t <= 5 /\
  (forall t' : Ticket,
      (hits t high_priority_keywords <= hits t' high_priority_keywords)%nat ->
      (hits t medium_priority_keywords <= hits t' medium_priority_keywords)%nat ->
      calculate_ticket_priority t <= calculate_ticket_priority t') /\
  (forall t' : Ticket,
      (forall k, In k (high_priority_keywords ++ medium_priority_keywords)%list ->
                 mentions t k = true -> mentions t' k = true) ->
      calculate_ticket_priority t <= calculate_ticket_priority t') /\
  (forall (a : Agent) (n : Z),
      ticket_priority (snd (calculate_composite_score_with_fairness t a n))
      = calculate_ticket_priority t).
Proof.
  assert (Hmono : forall t' : Ticket,
      (hits t high_priority_keywords <= hits t' high_priority_keywords)%nat ->
      (hits t medium_priority_keywords <= hits t' medium_priority_keywords)%nat ->
      calculate_ticket_priority t <= calculate_ticket_priority t').
  { intros t' Hh Hm. rewrite !ticket_priority_formula.
    apply Rle_min_compat_r. unfold priority_before_cap.
    apply le_INR in Hh. apply le_INR in Hm. lra. }
  split; [apply ticket_priority_formula |].
  split; [apply ticket_priority_range |].
  split; [exact Hmono |]. split.
  - intros t' H. apply Hmono; apply hits_monotone; intros k Hk;
      apply H, in_or_app; auto.
  - intros a n. unfold calculate_composite_score_with_fairness.
    destruct (calculate_skill_match_score t a). reflexivity.
Qed.

Lemma ticket_priority_spec_witness :
  calculate_ticket_priority quiet_ticket <= calculate_ticket_priority outage_ticket.
Proof.
  destruct (ticket_priority_spec quiet_ticket) as (_ & _ & H & _).
  apply H; vm_compute; lia.
Defined.

(** ** Composite scorer *)

Lemma composite_unfold (t : Ticket) (a : Agent) (n : Z) :
  composite_of t a n =
    unpenalised_score t a n * penalty_for (fst (calculate_skill_match_score t a)).
Proof.
  unfold composite_of, unpenalised_score, calculate_composite_score_with_fairness.
  destruct (calculate_skill_match_score t a). reflexivity.
Qed.

Lemma details_unfold (t : Ticket) (a : Agent) (n : Z) :
  skill_score (details_of t a n) = fst (calculate_skill_match_score t a) /\
  matched_skills (details_of t a n) = snd (calculate_skill_match_score t a) /\
  skill_penalty (details_of t a n) = penalty_for (fst (calculate_skill_match_score t a)) /\
  composite_score (details_of t a n) = composite_of t a n /\
  current_assignments (details_of t a n) = n.
Proof.
  unfold details_of, composite_of, calculate_composite_score_with_fairness.
  destruct (calculate_skill_match_score t a). repeat split.
Qed.

Lemma penalty_for_cases (s : R) :
  (s < 5 /\ penalty_for s = 0.3) \/ (5 <= s /\ penalty_for s = 1).
Proof.
  unfold penalty_for, skill_threshold.
  destruct (Rlt_dec s 5.0); [left | right]; split; lra.
Qed.

(** C5: when the skill score is below 5.0 the penalty factor is 0.3 and the
    composite score is exactly 0.3 times the score without the penalty
    factor; when the skill score is at least 5.0 the penalty factor is 1.0
    and the composite score is the score without it. *)
Theorem skill_floor_penalty (t : Ticket) (a : Agent) (n : Z) :
  (skill_score (details_of t a n) < 5 ->
     skill_penalty (details_of t a n) = 0.3 /\
     composite_of t a n = 0.3 * unpenalised_score t a n) /\
  (5 <= skill_score (details_of t a n) ->
     skill_penalty (details_of t a n) = 1.0 /\
     composite_of t a n = unpenalised_score t a n).
Proof.
  destruct (details_unfold t a n) as (Hs & _ & Hp & _).
  rewrite Hs, Hp, composite_unfold.
  destruct (penalty_for_cases (fst (calculate_skill_match_score t a)))
    as [[Hlt ->] | [Hge ->]]; split; intros H; split; lra.
Qed.

Lemma skill_match_no_skills (t : Ticket) (a : Agent) :
  skills a = [] -> calculate_skill_match_score t a = (0, []).
Proof.
  intros H. unfold calculate_skill_match_score. rewrite H. reflexivity.
Qed.

(** ** Skill match scorer *)

Section SkillLoop.

Variables (text : string) (ticket_keywords : list string) (fl : DomainFlags).

Let raw := raw_skill_score text ticket_keywords.
Let step := skill_step text ticket_keywords fl.

Lemma skill_step_cases (st : R * list string) (entry : string * Z) :
  step st entry =
    if is_matched text ticket_keywords entry
    then (fst st + contribution text ticket_keywords fl entry, (snd st ++ [fst entry])%list)
    else st.
Proof.
  destruct st as [total matched], entry as [skill level].
  unfold step, skill_step, is_matched, contribution, raw. simpl.
  destruct (_ <? _)%Z; reflexivity.
Qed.

Lemma skill_loop_matched (l : list (string * Z)) (st : R * list string) :
  snd (fold_left step l st) =
    (snd st ++ map fst (List.filter (is_matched text ticket_keywords) l))%list.
Proof.
  revert st. induction l as [| e l IH]; intros st.
  - simpl. now rewrite app_nil_r.
  - cbn [fold_left List.filter]. rewrite IH, skill_step_cases.
    destruct (is_matched text ticket_keywords e); [| reflexivity].
    cbn [snd map]. now rewrite <- app_assoc.
Qed.

Lemma skill_loop_total (l : list (string * Z)) (st : R * list string) :
  fst (fold_left step l st) =
    fold_left Rplus (map (contribution text ticket_keywords fl) (List.filter (is_matched text ticket_keywords) l)) (fst st).
Proof.
  revert st. induction l as [| e l IH]; intros st.
  - reflexivity.
  - cbn [fold_left List.filter]. rewrite IH, skill_step_cases.
    destruct (is_matched text ticket_keywords e); reflexivity.
Qed.

End SkillLoop.

Lemma domain_multiplier_values (fl : DomainFlags) (skill : string) :
  In (domain_multiplier fl skill) [0.3; 1.0; 1.8; 2.0].
Proof.
  unfold domain_multiplier.
  repeat match goal with
         | |- context [if ?b then _ else _] => destruct b
         end; simpl; auto 6.
Qed.

Lemma domain_multiplier_pos (fl : DomainFlags) (skill : string) :
  0 < domain_multiplier fl skill.
Proof.
  pose proof (domain_multiplier_values fl skill) as H. simpl in H.
  destruct H as [<- | [<- | [<- | [<- | []]]]]; lra.
Qed.

Lemma contribution_pos (text : string) (kws : list string) (fl : DomainFlags)
    (entry : string * Z) :
  is_matched text kws entry = true -> (0 < snd entry)%Z ->
  0 < contribution text kws fl entry.
Proof.
  unfold is_matched, contribution, weighted_score. intros Hraw Hlevel.
  apply Z.ltb_lt in Hraw.
  apply Rmult_lt_0_compat; [| apply domain_multiplier_pos].
  apply IZR_lt. lia.
Qed.

Lemma sum_nonneg (xs : list R) (start : R) :
  Forall (fun x => 0 <= x) xs -> 0 <= start -> 0 <= fold_left Rplus xs start.
Proof.
  intros H. revert start. induction H as [| x xs Hx _ IH]; intros start Hs.
  - exact Hs.
  - simpl. apply IH. lra.
Qed.

Lemma skill_match_score_unfold (t : Ticket) (a : Agent) :
  let text := ticket_text t in
  let kws := extract_keywords_from_ticket t in
  let fl := domain_flags text in
  let picked := List.filter (is_matched text kws) (skills a) in
  calculate_skill_match_score t a =
    (if (0 <? List.length (skills a))%nat
     then fold_left Rplus (map (contribution text kws fl) picked) 0
          / sqrt (INR (List.length (skills a)))
     else 0,
     map fst picked).
Proof.
  intros text kws fl picked. unfold calculate_skill_match_score.
  fold text kws fl.
  pose proof (skill_loop_matched text kws fl (skills a) (0, [])) as Hm.
  pose proof (skill_loop_total text kws fl (skills a) (0, [])) as Ht.
  destruct (fold_left _ (skills a) (0, [])) as [total matched].
  simpl in Hm, Ht. subst total matched. reflexivity.
Qed.

Lemma skill_match_score_nonneg (t : Ticket) (a : Agent) :
  (forall skill level, In (skill, level) (skills a) -> (0 < level)%Z) ->
  0 <= fst (calculate_skill_match_score t a).
Proof.
  intros Hpos. rewrite skill_match_score_unfold. cbn [fst].
  destruct (Nat.ltb_spec 0 (List.length (skills a))) as [Hlen | _]; [| lra].
  apply Rmult_le_pos.
  - apply sum_nonneg; [| lra].
    apply List.Forall_forall. intros x Hx.
    apply in_map_iff in Hx. destruct Hx as ([skill level] & <- & Hin).
    apply filter_In in Hin. destruct Hin as [Hin Hm].
    left. apply contribution_pos; [exact Hm |]. simpl. eauto.
  - left. apply Rinv_0_lt_compat, sqrt_lt_R0, lt_0_INR. exact Hlen.
Qed.

(** C10: the matched-skill list is the agent's skills, in order, whose raw
    text score is strictly positive, so a skill is listed exactly when its
    raw score is positive, whatever its domain multiplier; every domain
    multiplier is one of 0.3, 1.0, 1.8 and 2.0, hence positive; and when
    all proficiency levels are positive, each matched skill contributes a
    strictly positive amount and the skill match score is non-negative. *)
Theorem skill_match_score_sound (t : Ticket) (a : Agent) :
  let text := ticket_text t in
  let kws := extract_keywords_from_ticket t in
  let fl := domain_flags text in
  let raw := raw_skill_score text kws in
  snd (calculate_skill_match_score t a)
    = map fst (List.filter (fun e => (0 <? raw (fst e))%Z) (skills a)) /\
  (forall skill : string,
      In skill (snd (calculate_skill_match_score t a)) <->
      (exists level, In (skill, level) (skills a)) /\ (0 < raw skill)%Z) /\
  (forall skill : string,
      In (domain_multiplier fl skill) [0.3; 1.0; 1.8; 2.0] /\
      0 < domain_multiplier fl skill) /\
  ((forall skill level, In (skill, level) (skills a) -> (0 < level)%Z) ->
   0 <= fst (calculate_skill_match_score t a) /\
   forall skill level,
     In (skill, level) (skills a) -> (0 < raw skill)%Z ->
     0 < weighted_score fl skill (raw skill) level).
Proof.
  intros text kws fl raw.
  assert (Hlist : snd (calculate_skill_match_score t a)
            = map fst (List.filter (fun e => (0 <? raw (fst e))%Z) (skills a))).
  { rewrite skill_match_score_unfold. reflexivity. }
  split; [exact Hlist |]. split; [| split].
  - intros skill. rewrite Hlist, in_map_iff. split.
    + intros ([s level] & <- & Hin). apply filter_In in Hin.
      destruct Hin as [Hin Hraw]. apply Z.ltb_lt in Hraw. eauto.
    + intros [[level Hin] Hraw]. exists (skill, level). split; [reflexivity |].
      apply filter_In. split; [exact Hin | now apply Z.ltb_lt].
  - intros skill. split; [apply domain_multiplier_values | apply domain_multiplier_pos].
  - intros Hpos. split; [now apply skill_match_score_nonneg |].
    intros skill level Hin Hraw.
    apply (contribution_pos text kws fl (skill, level)).
    + now apply Z.ltb_lt.
    + simpl. eauto.
Qed.

Lemma skill_match_score_sound_witness :
  0 <= fst (calculate_skill_match_score vpn_ticket vpn_agent) /\
  0 < weighted_score (domain_flags (ticket_text vpn_ticket)) "VPN_Troubleshooting"
        (raw_skill_score (ticket_text vpn_ticket)
           (extract_keywords_from_ticket vpn_ticket) "VPN_Troubleshooting") 8.
Proof.
  destruct (skill_match_score_sound vpn_ticket vpn_agent) as (_ & _ & _ & H).
  assert (Hpos : forall skill level,
             In (skill, level) (skills vpn_agent) -> (0 < level)%Z).
  { intros skill level [E | [E | []]]; inversion E; lia. }
  destruct (H Hpos) as [H0 H1]. split; [exact H0 |].
  apply H1; [left; reflexivity | vm_compute; reflexivity].
Defined.

(** ** Greedy allocator: the choice of an agent *)

Section Choice.

Variables (t : Ticket) (cs : gmap string Z).

Lemma consider_cases (b : Best) (a : Agent) :
  consider t cs b a =
    if is_available a then
      if Rlt_dec (best_score b) (score_at t cs a)
      then {| best_agent := Some a; best_score := score_at t cs a;
              best_details := Some (details_at t cs a) |}
      else b
    else b.
Proof.
  unfold consider, score_at, details_at, composite_of, details_of.
  destruct (is_available a); [| reflexivity]. simpl.
  destruct (calculate_composite_score_with_fairness t a (count_of cs a)).
  reflexivity.
Qed.

Lemma best_after_nil : best_after t cs [] no_best.
Proof. simpl. repeat split. intros x []. Qed.

Lemma best_after_step (seen : list Agent) (b : Best) (a : Agent) :
  best_after t cs seen b -> best_after t cs (seen ++ [a]) (consider t cs b a).
Proof.
  intros Hb. rewrite consider_cases.
  unfold best_after in *.
  destruct (best_agent b) as [a0 |] eqn:Eb.
  - destruct Hb as ((front & back & -> & Hav & Hfront & Hback) & Hgt & Hsc & Hd).
    destruct (is_available a) eqn:Ea;
      [destruct (Rlt_dec (best_score b) (score_at t cs a)) as [Hlt | Hge] |].
    + cbn [best_agent best_score best_details]. repeat split; [| lra].
      exists (front ++ a0 :: back)%list, []. repeat split; [exact Ea | | intros x []].
      intros x Hx Hxa. apply in_app_or in Hx.
      destruct Hx as [Hx | [<- | Hx]].
      * specialize (Hfront x Hx Hxa). lra.
      * lra.
      * specialize (Hback x Hx Hxa). lra.
    + rewrite Eb. repeat split; try assumption.
      exists front, (back ++ [a])%list. rewrite <- app_assoc. simpl.
      repeat split; try assumption.
      intros x Hx Hxa. apply in_app_or in Hx.
      destruct Hx as [Hx | [<- | []]]; [now apply Hback | lra].
    + rewrite Eb. repeat split; try assumption.
      exists front, (back ++ [a])%list. rewrite <- app_assoc. simpl.
      repeat split; try assumption.
      intros x Hx Hxa. apply in_app_or in Hx.
      destruct Hx as [Hx | [<- | []]]; [now apply Hback | congruence].
  - destruct Hb as (Hd & Hsc & Hall).
    destruct (is_available a) eqn:Ea;
      [destruct (Rlt_dec (best_score b) (score_at t cs a)) as [Hlt | Hge] |].
    + cbn [best_agent best_score best_details]. repeat split; [| lra].
      exists seen, []. repeat split; [exact Ea | | intros x []].
      intros x Hx Hxa. specialize (Hall x Hx Hxa). lra.
    + rewrite Eb. repeat split; try assumption.
      intros x Hx Hxa. apply in_app_or in Hx.
      destruct Hx as [Hx | [<- | []]]; [now apply Hall | lra].
    + rewrite Eb. repeat split; try assumption.
      intros x Hx Hxa. apply in_app_or in Hx.
      destruct Hx as [Hx | [<- | []]]; [now apply Hall | congruence].
Qed.

Lemma best_after_fold (rest seen : list Agent) (b : Best) :
  best_after t cs seen b ->
  best_after t cs (seen ++ rest) (fold_left (consider t cs) rest b).
Proof.
  revert seen b. induction rest as [| a rest IH]; intros seen b Hb.
  - now rewrite app_nil_r.
  - simpl. replace (seen ++ a :: rest)%list with ((seen ++ [a]) ++ rest)%list
      by now rewrite <- app_assoc.
    apply IH, best_after_step, Hb.
Qed.

Lemma select_best_spec (agents : list Agent) :
  best_after t cs agents (select_best t agents cs).
Proof. apply (best_after_fold agents [] no_best), best_after_nil. Qed.

Lemma first_maximiser_member (agents : list Agent) (a : Agent) :
  first_maximiser t cs agents a -> In a agents /\ is_available a = true.
Proof.
  intros (front & back & -> & Hav & _). split; [| exact Hav].
  apply in_or_app. right. now left.
Qed.

Lemma first_maximiser_best (agents : list Agent) (a x : Agent) :
  first_maximiser t cs agents a -> In x agents -> is_available x = true ->
  score_at t cs x <= score_at t cs a.
Proof.
  intros (front & back & -> & _ & Hf & Hb) Hx Hxa.
  apply in_app_or in Hx. destruct Hx as [Hx | [<- | Hx]].
  - left. now apply Hf.
  - lra.
  - now apply Hb.
Qed.

End Choice.

(** ** Greedy allocator: one ticket *)

Lemma allocate_cases (agents : list Agent) (st : Alloc) (t : Ticket) :
  allocate agents st t =
    match chosen agents st t with
    | Some a => assigned_to st t a
    | None => skipped st t
    end.
Proof.
  pose proof (select_best_spec t (counts st) agents) as H.
  unfold allocate, chosen, best_after in *.
  destruct (best_agent (select_best t agents (counts st))) as [a |].
  - destruct H as (_ & _ & _ & ->). reflexivity.
  - reflexivity.
Qed.

Lemma chosen_some (agents : list Agent) (st : Alloc) (t : Ticket) (a : Agent) :
  chosen agents st t = Some a ->
  first_maximiser t (counts st) agents a /\ -1 < score_at t (counts st) a.
Proof.
  intros E. pose proof (select_best_spec t (counts st) agents) as H.
  unfold chosen in E. unfold best_after in H. rewrite E in H.
  destruct H as (H1 & H2 & _). now split.
Qed.

Lemma chosen_none (agents : list Agent) (st : Alloc) (t : Ticket) :
  chosen agents st t = None <->
  forall x, In x agents -> is_available x = true -> score_at t (counts st) x <= -1.
Proof.
  pose proof (select_best_spec t (counts st) agents) as H.
  unfold chosen. unfold best_after in H.
  destruct (best_agent (select_best t agents (counts st))) as [a |].
  - destruct H as (Hmax & Hgt & _). split; [discriminate |].
    intros Hall. apply first_maximiser_member in Hmax. destruct Hmax as [Hin Hav].
    specialize (Hall a Hin Hav). lra.
  - destruct H as (_ & _ & Hall). split; [intros _; exact Hall | reflexivity].
Qed.

(** When the inner loop ends with an agent, that agent is "Available",
    its composite score is strictly greater than the score of every
    "Available" agent in front of it in the agent list and at least the
    score of every "Available" agent behind it, so it has the greatest
    composite score and is the first to reach it; the ticket's assignment
    names this agent. The loop ends with no agent exactly when no
    "Available" agent scores above the initial [best_score] of -1. *)
Lemma greedy_choice_is_first_maximiser
    (agents : list Agent) (st : Alloc) (t : Ticket) :
  match chosen agents st t with
  | Some a =>
      (exists front back : list Agent,
          agents = (front ++ a :: back)%list /\
          is_available a = true /\
          (forall x, In x front -> is_available x = true ->
                     score_at t (counts st) x < score_at t (counts st) a) /\
          (forall x, In x back -> is_available x = true ->
                     score_at t (counts st) x <= score_at t (counts st) a)) /\
      (forall x, In x agents -> is_available x = true ->
                 score_at t (counts st) x <= score_at t (counts st) a) /\
      assignments (allocate agents st t) =
        (assignments st ++ [assignment_for t a (details_at t (counts st) a)])%list
  | None =>
      (forall x, In x agents -> is_available x = true ->
                 score_at t (counts st) x <= -1) /\
      assignments (allocate agents st t) = assignments st
  end.
Proof.
  rewrite allocate_cases.
  destruct (chosen agents st t) as [a |] eqn:E.
  - apply chosen_some in E. destruct E as [Hmax _].
    split; [exact Hmax |]. split; [| reflexivity].
    intros x. now apply first_maximiser_best.
  - split; [now apply chosen_none | reflexivity].
Qed.

(** ** Greedy allocator: the whole batch *)

Lemma allocate_assignments_from (agents : list Agent) (st : Alloc) (t : Ticket)
    (asg : Assignment) :
  In asg (assignments (allocate agents st t)) ->
  In asg (assignments st) \/
  exists a, In a agents /\ is_available a = true /\
            assigned_agent_id asg = agent_id a /\ a_ticket_id asg = ticket_id t.
Proof.
  rewrite allocate_cases. destruct (chosen agents st t) as [a |] eqn:E.
  - apply chosen_some in E. destruct E as [Hmax _].
    apply first_maximiser_member in Hmax. destruct Hmax as [Hin Hav].
    cbn [assigned_to assignments]. intros H. apply in_app_or in H.
    destruct H as [H | [<- | []]]; [now left | right].
    exists a. repeat split; assumption.
  - now left.
Qed.

Lemma batch_assignments_from (agents : list Agent) (ts : list Ticket) (st : Alloc)
    (asg : Assignment) :
  In asg (assignments (fold_left (allocate agents) ts st)) ->
  In asg (assignments st) \/
  exists a t, In a agents /\ is_available a = true /\ In t ts /\
              assigned_agent_id asg = agent_id a /\ a_ticket_id asg = ticket_id t.
Proof.
  revert st. induction ts as [| t ts IH]; intros st H.
  - now left.
  - simpl in H. apply IH in H. destruct H as [H | (a & t' & Ha & Hav & Ht & E)].
    + apply allocate_assignments_from in H.
      destruct H as [H | (a & Ha & Hav & E1 & E2)]; [now left | right].
      exists a, t. split; [exact Ha |]. split; [exact Hav |].
      split; [now left | now split].
    + right. exists a, t'. split; [exact Ha |]. split; [exact Hav |].
      split; [now right | exact E].
Qed.

Lemma sorted_reverse_In {A : Type} (key : A -> R) (xs : list A) (x : A) :
  In x (sorted_reverse key xs) <-> In x xs.
Proof.
  assert (Hplace : forall y l, In x (place key y l) <-> x = y \/ In x l).
  { intros y l. induction l as [| z l IH]; simpl.
    - intuition.
    - destruct (Rlt_dec (key y) (key z)); simpl; rewrite ?IH; intuition. }
  induction xs as [| y xs IH]; simpl; [reflexivity |].
  rewrite Hplace, IH. intuition.
Qed.

(** Every assignment of the batch goes to an "Available" agent of the
    agent list, for a ticket of the ticket list. *)
Lemma assigned_agent_is_available (agents : list Agent) (tickets : list Ticket)
    (asg : Assignment) :
  In asg (assign_tickets agents tickets) ->
  exists a t, In a agents /\ availability_status a = "Available" /\
              In t tickets /\
              assigned_agent_id asg = agent_id a /\ a_ticket_id asg = ticket_id t.
Proof.
  intros H. apply batch_assignments_from in H.
  destruct H as [[] | (a & t & Ha & Hav & Ht & E1 & E2)].
  exists a, t. repeat split; try assumption.
  - now apply String.eqb_eq.
  - now apply (sorted_reverse_In calculate_ticket_priority).
Qed.

Lemma same_id_same_agent (agents : list Agent) (a b : Agent) :
  List.NoDup (map agent_id agents) ->
  In a agents -> In b agents -> agent_id a = agent_id b -> a = b.
Proof.
  induction agents as [| x agents IH]; intros Hnd Ha Hb E; [destruct Ha |].
  simpl in Hnd. inversion Hnd as [| ? ? Hx Hnd']; subst.
  destruct Ha as [-> | Ha], Hb as [-> | Hb].
  - reflexivity.
  - exfalso. apply Hx. rewrite E. now apply in_map.
  - exfalso. apply Hx. rewrite <- E. now apply in_map.
  - now apply IH.
Qed.

(** C2: with agent identifiers unique, an agent of the list whose
    availability status is not exactly "Available" is never the
    [assigned_agent_id] of a produced assignment, whatever the tickets. *)
Theorem unavailable_agent_never_assigned
    (agents : list Agent) (tickets : list Ticket) (a : Agent) :
  List.NoDup (map agent_id agents) ->
  In a agents ->
  availability_status a <> "Available" ->
  ~ In (agent_id a) (map assigned_agent_id (assign_tickets agents tickets)).
Proof.
  intros Hnd Ha Hst Hin.
  apply in_map_iff in Hin. destruct Hin as (asg & E & Hasg).
  apply assigned_agent_is_available in Hasg.
  destruct Hasg as (b & _ & Hb & Hav & _ & E' & _).
  assert (a = b) by (apply (same_id_same_agent agents); congruence).
  subst b. contradiction.
Qed.

Lemma unavailable_agent_never_assigned_witness :
  ~ In (agent_id busy_agent)
       (map assigned_agent_id
            (assign_tickets [busy_agent; idle_agent] [quiet_ticket; outage_ticket])).
Proof.
  apply (unavailable_agent_never_assigned [busy_agent; idle_agent]).
  - repeat constructor; simpl; intuition discriminate.
  - left. reflexivity.
  - discriminate.
Defined.

(** *** Counters *)

Lemma count_of_initial (agents : list Agent) (a : Agent) :
  count_of (initial_counts agents) a = 0%Z.
Proof.
  unfold count_of, initial_counts.
  induction agents as [| x agents IH]; simpl.
  - now rewrite lookup_empty.
  - rewrite lookup_insert. destruct (decide (agent_id x = agent_id a)); auto.
Qed.

Lemma counters_cover_initial (agents : list Agent) :
  counters_cover agents (initial_alloc agents).
Proof.
  unfold counters_cover, initial_alloc, initial_counts. simpl.
  induction agents as [| x agents IH]; intros a Ha; [destruct Ha |].
  simpl. rewrite lookup_insert.
  destruct (decide (agent_id x = agent_id a)); [eauto |].
  destruct Ha as [-> | Ha]; [congruence | now apply IH].
Qed.

Lemma counters_cover_allocate (agents : list Agent) (st : Alloc) (t : Ticket) :
  counters_cover agents st -> counters_cover agents (allocate agents st t).
Proof.
  intros H a Ha. rewrite allocate_cases.
  destruct (chosen agents st t) as [b |]; simpl; [| now apply H].
  rewrite lookup_insert.
  destruct (decide (agent_id b = agent_id a)); [eauto | now apply H].
Qed.

(** The counter lookup of the inner loop never misses: every agent's id is
    a key of the counters throughout the batch. *)
Lemma counter_present (agents : list Agent) (ts : list Ticket) (st : Alloc) :
  counters_cover agents st ->
  counters_cover agents (fold_left (allocate agents) ts st).
Proof.
  revert st. induction ts as [| t ts IH]; intros st H; [exact H |].
  simpl. now apply IH, counters_cover_allocate.
Qed.

(** *** Tickets that get no assignment *)

Lemma none_available_none_chosen (agents : list Agent) (st : Alloc) (t : Ticket) :
  (forall a, In a agents -> is_available a = false) ->
  allocate agents st t = skipped st t.
Proof.
  intros H. rewrite allocate_cases.
  assert (E : chosen agents st t = None).
  { apply chosen_none. intros x Hx Hav. rewrite (H x Hx) in Hav. discriminate. }
  now rewrite E.
Qed.

Lemma unpenalised_score_pos (t : Ticket) (a : Agent) (n : Z) :
  (forall skill level, In (skill, level) (skills a) -> (0 < level)%Z) ->
  (0 <= experience_level a)%Z ->
  0 < unpenalised_score t a n.
Proof.
  intros Hs He. unfold unpenalised_score.
  pose proof (skill_match_score_nonneg t a Hs).
  pose proof (workload_score_pos a n).
  pose proof (experience_score_nonneg a He).
  pose proof (ticket_priority_range t).
  apply Rmult_lt_0_compat; lra.
Qed.

Lemma composite_score_pos (t : Ticket) (a : Agent) (n : Z) :
  (forall skill level, In (skill, level) (skills a) -> (0 < level)%Z) ->
  (0 <= experience_level a)%Z ->
  0 < composite_of t a n.
Proof.
  intros Hs He. rewrite composite_unfold.
  apply Rmult_lt_0_compat; [now apply unpenalised_score_pos |].
  destruct (penalty_for_cases (fst (calculate_skill_match_score t a)))
    as [[_ ->] | [_ ->]]; lra.
Qed.

(** With positive proficiency levels and non-negative experience levels
    every "Available" agent scores above the initial [best_score], and
    then a ticket is left without assignment, with its warning printed,
    exactly when no agent is "Available". *)
Lemma unassigned_iff_none_available (agents : list Agent) (st : Alloc) (t : Ticket) :
  (forall a, In a agents ->
     (forall skill level, In (skill, level) (skills a) -> (0 < level)%Z) /\
     (0 <= experience_level a)%Z) ->
  (allocate agents st t = skipped st t <->
   forall a, In a agents -> availability_status a <> "Available") /\
  (assignments (allocate agents st t) = assignments st <->
   forall a, In a agents -> availability_status a <> "Available").
Proof.
  intros Hwf.
  assert (Hnone : (forall a, In a agents -> availability_status a <> "Available")
                  <-> chosen agents st t = None).
  { rewrite chosen_none. split.
    - intros H x Hx Hav. apply String.eqb_eq in Hav. now apply H in Hx.
    - intros H a Ha Hav. apply String.eqb_eq in Hav.
      specialize (H a Ha Hav). destruct (Hwf a Ha) as [Hs He].
      pose proof (composite_score_pos t a (count_of (counts st) a) Hs He) as Hp.
      unfold score_at in H. lra. }
  rewrite !Hnone, allocate_cases.
  destruct (chosen agents st t) as [a |]; simpl.
  - split; split; try discriminate.
    + intros E. apply (f_equal assignments) in E. simpl in E.
      apply (f_equal (@List.length _)) in E. rewrite length_app in E. simpl in E. lia.
    + intros E. apply (f_equal (@List.length _)) in E.
      rewrite length_app in E. simpl in E. lia.
  - split; split; reflexivity.
Qed.

Lemma quiet_ticket_priority : calculate_ticket_priority quiet_ticket = 1.
Proof.
  rewrite ticket_priority_formula. unfold priority_before_cap.
  replace (hits quiet_ticket high_priority_keywords) with 0%nat
    by (vm_compute; reflexivity).
  replace (hits quiet_ticket medium_priority_keywords) with 0%nat
    by (vm_compute; reflexivity).
  simpl INR. rewrite Rmin_left; lra.
Qed.

(** With positive proficiency levels and non-negative experience levels,
    as soon as one agent is "Available" the inner loop ends with an agent,
    the first of those with the greatest composite score. *)
Lemma greedy_choice_when_levels_sound (agents : list Agent) (st : Alloc) (t : Ticket) :
  (forall a, In a agents ->
     (forall skill level, In (skill, level) (skills a) -> (0 < level)%Z) /\
     (0 <= experience_level a)%Z) ->
  (exists a, In a agents /\ availability_status a = "Available") ->
  exists a, chosen agents st t = Some a /\
            first_maximiser t (counts st) agents a /\
            allocate agents st t = assigned_to st t a.
Proof.
  intros Hwf (a0 & Hin & Hst).
  rewrite allocate_cases.
  destruct (chosen agents st t) as [a |] eqn:E.
  - exists a. split; [reflexivity |]. split; [| reflexivity].
    now apply chosen_some in E.
  - exfalso.
    pose proof (proj1 (chosen_none agents st t) E a0 Hin) as Hle.
    destruct (Hwf a0 Hin) as [Hs He].
    pose proof (composite_score_pos t a0 (count_of (counts st) a0) Hs He) as Hp.
    unfold score_at in Hle.
    assert (is_available a0 = true) by now apply String.eqb_eq.
    specialize (Hle ltac:(assumption)). lra.
Qed.

(** The composite score, for the quiet ticket, of an "Available" agent
    with no skills and total load 0. *)
Lemma unskilled_idle_score (a : Agent) (n : Z) :
  skills a = [] ->
  availability_status a = "Available" ->
  (current_load a + n = 0)%Z ->
  composite_of quiet_ticket a n = (0.3 + calculate_experience_score a * 0.1) * 0.3.
Proof.
  intros Hsk Hst Hn. rewrite composite_unfold. unfold unpenalised_score.
  rewrite skill_match_no_skills by exact Hsk. cbn [fst].
  rewrite quiet_ticket_priority.
  unfold calculate_workload_score. rewrite Hn.
  rewrite load_score_decay by lia.
  replace (- (0 / 3)) with 0 by lra. rewrite exp_0.
  assert (Ef : availability_factor a = 1).
  { unfold availability_factor. rewrite Hst. simpl. lra. }
  rewrite Ef.
  destruct (penalty_for_cases 0) as [[_ ->] | [H _]]; lra.
Qed.

Lemma deep_in_debt_score (n : Z) :
  (current_load deep_in_debt + n = 0)%Z ->
  composite_of quiet_ticket deep_in_debt n = -1.11.
Proof.
  intros Hn. rewrite unskilled_idle_score by (reflexivity || exact Hn).
  unfold calculate_experience_score, max_experience, deep_in_debt.
  cbn [experience_level]. change (Z.min (-600) 15) with (-600)%Z. lra.
Qed.

Lemma deeper_in_debt_score (n : Z) :
  (current_load deeper_in_debt + n = 0)%Z ->
  composite_of quiet_ticket deeper_in_debt n = -1.71.
Proof.
  intros Hn. rewrite unskilled_idle_score by (reflexivity || exact Hn).
  unfold calculate_experience_score, max_experience, deeper_in_debt.
  cbn [experience_level]. change (Z.min (-900) 15) with (-900)%Z. lra.
Qed.

(** C3 at a failing input: the only agent is "Available" but its experience
    level of -600 puts its composite score at -1.11, below the initial
    [best_score] of -1; the ticket gets no assignment and the warning
    "no available agents" is printed. *)
Theorem available_agent_left_unassigned :
  availability_status deep_in_debt = "Available" /\
  score_at quiet_ticket (initial_counts [deep_in_debt]) deep_in_debt = -1.11 /\
  assign_tickets [deep_in_debt] [quiet_ticket] = [] /\
  printed (run_allocator [deep_in_debt] [quiet_ticket]) = [warning_line quiet_ticket].
Proof.
  assert (Hs : score_at quiet_ticket (initial_counts [deep_in_debt]) deep_in_debt = -1.11).
  { unfold score_at. apply deep_in_debt_score.
    rewrite count_of_initial. reflexivity. }
  assert (E : chosen [deep_in_debt] (initial_alloc [deep_in_debt]) quiet_ticket = None).
  { apply chosen_none. intros x [<- | []] _.
    change (counts (initial_alloc [deep_in_debt])) with (initial_counts [deep_in_debt]).
    rewrite Hs. lra. }
  split; [reflexivity |]. split; [exact Hs |].
  unfold assign_tickets, run_allocator, sorted_tickets.
  cbn [sorted_reverse place fold_left].
  rewrite allocate_cases, E. split; reflexivity.
Qed.

(** C8 at a failing input: both agents are "Available"; the second has the
    greatest composite score, -1.11 against -1.71, and is the first to
    reach it, but neither score is above the initial [best_score] of -1,
    so the inner loop ends with no agent and the ticket is assigned to
    nobody. *)
Theorem best_candidate_not_selected :
  let agents := [deeper_in_debt; deep_in_debt] in
  let cs := initial_counts agents in
  score_at quiet_ticket cs deeper_in_debt = -1.71 /\
  score_at quiet_ticket cs deep_in_debt = -1.11 /\
  first_maximiser quiet_ticket cs agents deep_in_debt /\
  best_agent (select_best quiet_ticket agents cs) = None /\
  assign_tickets agents [quiet_ticket] = [].
Proof.
  intros agents cs.
  assert (H1 : score_at quiet_ticket cs deeper_in_debt = -1.71).
  { unfold score_at. apply deeper_in_debt_score.
    unfold cs. rewrite count_of_initial. reflexivity. }
  assert (H2 : score_at quiet_ticket cs deep_in_debt = -1.11).
  { unfold score_at. apply deep_in_debt_score.
    unfold cs. rewrite count_of_initial. reflexivity. }
  assert (E : chosen agents (initial_alloc agents) quiet_ticket = None).
  { apply chosen_none.
    change (counts (initial_alloc agents)) with cs.
    intros x [<- | [<- | []]] _; [rewrite H1 | rewrite H2]; lra. }
  split; [exact H1 |]. split; [exact H2 |]. split; [| split].
  - exists [deeper_in_debt], []. split; [reflexivity |]. split; [reflexivity |].
    split.
    + intros x [<- | []] _. rewrite H1, H2. lra.
    + intros x [].
  - exact E.
  - unfold assign_tickets, run_allocator, sorted_tickets.
    cbn [sorted_reverse place fold_left].
    now rewrite allocate_cases, E.
Qed.

(** ** The order in which tickets are visited *)

Section SortedFacts.

Context {A : Type} (key : A -> R).

Lemma place_perm (x : A) (l : list A) : Permutation (x :: l) (place key x l).
Proof.
  induction l as [| y l IH]; simpl; [reflexivity |].
  destruct (Rlt_dec (key x) (key y)); [| reflexivity].
  rewrite perm_swap. now apply perm_skip.
Qed.

Lemma sorted_reverse_perm (xs : list A) : Permutation xs (sorted_reverse key xs).
Proof.
  induction xs as [| x xs IH]; simpl; [reflexivity |].
  rewrite <- place_perm. now apply perm_skip.
Qed.

Lemma place_descending (x : A) (l : list A) :
  descending key l -> descending key (place key x l).
Proof.
  unfold descending. induction 1 as [| y l Hl IH Hy]; simpl.
  - repeat constructor.
  - destruct (Rlt_dec (key x) (key y)) as [Hlt | Hge].
    + constructor; [exact IH |].
      apply (Permutation_Forall (place_perm x l)).
      constructor; [lra | exact Hy].
    + constructor; [now constructor |].
      constructor; [lra |].
      eapply List.Forall_impl; [| exact Hy]. simpl. intros z Hz. lra.
Qed.

Lemma sorted_reverse_descending (xs : list A) : descending key (sorted_reverse key xs).
Proof.
  induction xs as [| x xs IH]; simpl.
  - constructor.
  - now apply place_descending.
Qed.

Lemma place_with_key (p : R) (x : A) (l : list A) :
  with_key key p (place key x l) = with_key key p (x :: l).
Proof.
  unfold with_key. induction l as [| y l IH]; [reflexivity |].
  cbn [place]. destruct (Rlt_dec (key x) (key y)) as [Hlt | Hge]; [| reflexivity].
  cbn [List.filter] in *. rewrite IH.
  destruct (Req_dec_T (key x) p), (Req_dec_T (key y) p); try reflexivity.
  lra.
Qed.

Lemma sorted_reverse_stable (p : R) (xs : list A) :
  with_key key p (sorted_reverse key xs) = with_key key p xs.
Proof.
  induction xs as [| x xs IH]; [reflexivity |].
  cbn [sorted_reverse]. rewrite place_with_key.
  unfold with_key in *. cbn [List.filter]. now rewrite IH.
Qed.

Lemma sorted_reverse_length (xs : list A) :
  List.length (sorted_reverse key xs) = List.length xs.
Proof. symmetry. apply Permutation_length, sorted_reverse_perm. Qed.

End SortedFacts.

Lemma allocate_outcome (agents : list Agent) (st : Alloc) (t : Ticket) :
  (exists a, assignments (allocate agents st t)
               = (assignments st ++ [assignment_for t a (details_at t (counts st) a)])%list /\
             printed (allocate agents st t) = printed st) \/
  (assignments (allocate agents st t) = assignments st /\
   printed (allocate agents st t) = (printed st ++ [warning_line t])%list).
Proof.
  rewrite allocate_cases. destruct (chosen agents st t) as [a |]; eauto.
Qed.

Lemma batch_order (agents : list Agent) (ts : list Ticket) (st : Alloc) :
  exists (ids : list string) (lines : list string),
    map a_ticket_id (assignments (fold_left (allocate agents) ts st))
      = (map a_ticket_id (assignments st) ++ ids)%list /\
    printed (fold_left (allocate agents) ts st) = (printed st ++ lines)%list /\
    sublist ids (map ticket_id ts) /\
    sublist lines (map warning_line ts) /\
    (List.length ids + List.length lines = List.length ts)%nat.
Proof.
  revert st. induction ts as [| t ts IH]; intros st.
  - exists [], []. simpl. rewrite !app_nil_r. repeat split; constructor.
  - simpl. destruct (IH (allocate agents st t)) as (ids & lines & E1 & E2 & S1 & S2 & L).
    destruct (allocate_outcome agents st t) as [(a & Ea & Ep) | (Ea & Ep)].
    + exists (ticket_id t :: ids), lines.
      rewrite E1, E2, Ea, Ep, map_app, <- app_assoc. simpl.
      repeat split; [now constructor | now constructor | lia].
    + exists ids, (warning_line t :: lines).
      rewrite E1, E2, Ea, Ep, <- app_assoc. simpl.
      repeat split; [now constructor | now constructor | lia].
Qed.

(** C7: the tickets are visited in the order [sorted_tickets] gives, which
    is a rearrangement of the input in which priorities never increase
    and the tickets of any one priority keep their input order; the loop
    body runs once on each of them in that order, giving either an
    assignment or a warning, so the ticket ids of the assignments appear
    in visiting order and assignments and warnings together are as many as
    the tickets. *)
Theorem tickets_visited_by_priority (agents : list Agent) (tickets : list Ticket) :
  let visited := sorted_tickets tickets in
  Permutation tickets visited /\
  StronglySorted
    (fun t1 t2 => calculate_ticket_priority t2 <= calculate_ticket_priority t1)
    visited /\
  (forall p : R,
      with_key calculate_ticket_priority p visited
      = with_key calculate_ticket_priority p tickets) /\
  run_allocator agents tickets
    = fold_left (allocate agents) visited (initial_alloc agents) /\
  sublist (map a_ticket_id (assign_tickets agents tickets)) (map ticket_id visited) /\
  sublist (printed (run_allocator agents tickets)) (map warning_line visited) /\
  (List.length (assign_tickets agents tickets)
   + List.length (printed (run_allocator agents tickets))
   = List.length tickets)%nat.
Proof.
  intros visited. unfold visited, sorted_tickets.
  split; [apply sorted_reverse_perm |].
  split; [apply sorted_reverse_descending |].
  split; [intros p; apply sorted_reverse_stable |].
  split; [reflexivity |].
  unfold assign_tickets, run_allocator, sorted_tickets.
  destruct (batch_order agents (sorted_reverse calculate_ticket_priority tickets)
              (initial_alloc agents)) as (ids & lines & E1 & E2 & S1 & S2 & L).
  simpl in E1, E2. rewrite E2.
  rewrite <- (length_map a_ticket_id), E1.
  rewrite sorted_reverse_length in L. auto.
Qed.

(** ** A worked batch *)

Ltac eval_conditions :=
  repeat match goal with
         | |- context [if ?b then _ else _] =>
             let v := eval vm_compute in b in
             replace b with v by (vm_compute; reflexivity); cbv iota
         end.

Lemma vpn_specialist_skill :
  calculate_skill_match_score vpn_ticket vpn_specialist
  = (187.2, ["VPN_Troubleshooting"]).
Proof.
  rewrite skill_match_score_unfold.
  replace (List.filter _ (skills vpn_specialist))
    with [("VPN_Troubleshooting", 8%Z)] by (vm_compute; reflexivity).
  cbn [map fold_left fst List.length skills vpn_specialist].
  unfold contribution, weighted_score. cbn [fst snd].
  replace (raw_skill_score _ _ "VPN_Troubleshooting") with 13%Z
    by (vm_compute; reflexivity).
  unfold domain_multiplier. eval_conditions.
  change (0 <? 1)%nat with true. cbv iota.
  change (INR 1) with 1. rewrite sqrt_1.
  f_equal. change (13 * 8)%Z with 104%Z. lra.
Qed.

Lemma windows_generalist_skill :
  calculate_skill_match_score vpn_ticket windows_generalist = (0, []).
Proof.
  rewrite skill_match_score_unfold.
  replace (List.filter _ (skills windows_generalist))
    with (@nil (string * Z)) by (vm_compute; reflexivity).
  cbn [map fold_left fst List.length skills windows_generalist].
  change (0 <? 1)%nat with true. cbv iota.
  f_equal. lra.
Qed.

Lemma vpn_ticket_priority : calculate_ticket_priority vpn_ticket = 1.
Proof.
  rewrite ticket_priority_formula. unfold priority_before_cap.
  replace (hits vpn_ticket high_priority_keywords) with 0%nat
    by (vm_compute; reflexivity).
  replace (hits vpn_ticket medium_priority_keywords) with 0%nat
    by (vm_compute; reflexivity).
  simpl INR. rewrite Rmin_left; lra.
Qed.

Lemma outage_ticket_priority : calculate_ticket_priority outage_ticket = 5.
Proof.
  rewrite ticket_priority_formula. unfold priority_before_cap.
  replace (hits outage_ticket high_priority_keywords) with 2%nat
    by (vm_compute; reflexivity).
  replace (hits outage_ticket medium_priority_keywords) with 2%nat
    by (vm_compute; reflexivity).
  simpl INR. rewrite Rmin_right; lra.
Qed.

(** The urgent ticket is visited first although it comes last in the
    input, and two tickets of equal priority keep their input order. *)
Lemma outage_visited_first :
  sorted_tickets [quiet_ticket; vpn_ticket; outage_ticket]
  = [outage_ticket; quiet_ticket; vpn_ticket].
Proof.
  unfold sorted_tickets. cbn [sorted_reverse place].
  rewrite vpn_ticket_priority, outage_ticket_priority.
  destruct (Rlt_dec 1 5) as [_ | H]; [| lra].
  cbn [place]. rewrite quiet_ticket_priority, outage_ticket_priority, vpn_ticket_priority.
  destruct (Rlt_dec 1 5) as [_ | H]; [| lra].
  destruct (Rlt_dec 1 1) as [H | _]; [lra | reflexivity].
Qed.

(** The specification's example: the ticket "VPN connection dropped
    constantly" goes to the agent with the VPN skill, although the other
    agent has the lower load. *)
Lemma vpn_ticket_goes_to_specialist :
  map assigned_agent_id
      (assign_tickets [windows_generalist; vpn_specialist] [vpn_ticket])
  = ["A"].
Proof.
  set (agents := [windows_generalist; vpn_specialist]).
  assert (Hwf : forall a, In a agents ->
     (forall skill level, In (skill, level) (skills a) -> (0 < level)%Z) /\
     (0 <= experience_level a)%Z).
  { intros a [<- | [<- | []]]; (split; [| simpl; lia]);
      intros skill level [E | []]; inversion E; lia. }
  destruct (greedy_choice_when_levels_sound agents (initial_alloc agents) vpn_ticket Hwf)
    as (a & Ea & Hmax & Halloc).
  { exists vpn_specialist. split; [right; left; reflexivity | reflexivity]. }
  assert (Ha : a = vpn_specialist).
  { pose proof (first_maximiser_best _ _ _ _ vpn_specialist Hmax) as Hbest.
    specialize (Hbest ltac:(right; left; reflexivity) ltac:(reflexivity)).
    destruct (first_maximiser_member _ _ _ _ Hmax) as [[<- | [<- | []]] _];
      [exfalso | reflexivity].
    unfold score_at in Hbest. rewrite !composite_unfold in Hbest.
    unfold unpenalised_score in Hbest.
    rewrite vpn_specialist_skill, windows_generalist_skill, vpn_ticket_priority in Hbest.
    cbn [fst] in Hbest.
    pose proof (workload_score_pos vpn_specialist
                  (count_of (counts (initial_alloc agents)) vpn_specialist)) as Hw.
    pose proof (experience_score_nonneg vpn_specialist ltac:(simpl; lia)) as He.
    pose proof (experience_score_le_1 windows_generalist) as He'.
    assert (Hw' : calculate_workload_score windows_generalist
                    (count_of (counts (initial_alloc agents)) windows_generalist) <= 1).
    { unfold calculate_workload_score.
      change (counts (initial_alloc agents)) with (initial_counts agents).
      rewrite count_of_initial.
      rewrite load_score_decay by (simpl; lia).
      change (current_load windows_generalist + 0)%Z with 0%Z.
      replace (- (0 / 3)) with 0 by lra. rewrite exp_0.
      unfold availability_factor. simpl. lra. }
    destruct (penalty_for_cases 187.2) as [[Hlt _] | [_ E1]]; [lra |].
    destruct (penalty_for_cases 0) as [[_ E0] | [Hge _]]; [| lra].
    rewrite E1, E0 in Hbest. nra. }
  subst a.
  unfold assign_tickets, run_allocator, sorted_tickets.
  cbn [sorted_reverse place fold_left]. fold agents.
  rewrite Halloc. reflexivity.
Qed.

Lemma skill_floor_penalty_witness :
  (skill_penalty (details_of quiet_ticket novice_in_debt 0) = 0.3 /\
   composite_of quiet_ticket novice_in_debt 0
     = 0.3 * unpenalised_score quiet_ticket novice_in_debt 0) /\
  (skill_penalty (details_of vpn_ticket vpn_specialist 0) = 1.0 /\
   composite_of vpn_ticket vpn_specialist 0
     = unpenalised_score vpn_ticket vpn_specialist 0).
Proof.
  split.
  - apply (proj1 (skill_floor_penalty quiet_ticket novice_in_debt 0)).
    rewrite (proj1 (details_unfold quiet_ticket novice_in_debt 0)).
    rewrite skill_match_no_skills by reflexivity. simpl. lra.
  - apply (proj2 (skill_floor_penalty vpn_ticket vpn_specialist 0)).
    rewrite (proj1 (details_unfold vpn_ticket vpn_specialist 0)).
    rewrite vpn_specialist_skill. simpl. lra.
Defined.

(** ** Runs of the allocator *)

Section KeyedOrder.

Context {A : Type} (key : A -> R).

Lemma with_key_cons (p : R) (x : A) (l : list A) :
  with_key key p (x :: l) =
    if Req_dec_T (key x) p then x :: with_key key p l else with_key key p l.
Proof. unfold with_key. simpl. now destruct (Req_dec_T (key x) p). Qed.

Lemma with_key_In (p : R) (x : A) (l : list A) :
  In x (with_key key p l) <-> In x l /\ key x = p.
Proof.
  unfold with_key. rewrite filter_In.
  destruct (Req_dec_T (key x) p); intuition discriminate.
Qed.

Lemma descending_head_greatest (x y : A) (l : list A) :
  descending key (x :: l) -> In y (x :: l) -> key y <= key x.
Proof.
  unfold descending. intros Hd [<- | Hin]; [lra |].
  inversion Hd as [| ? ? _ Hall]; subst.
  rewrite List.Forall_forall in Hall. now apply Hall.
Qed.

(** A list in descending order of keys is determined by its sub-lists of
    equal key: two such lists with the same elements of every key, in the
    same order, are the same list. *)
Lemma descending_determined (l1 l2 : list A) :
  descending key l1 -> descending key l2 ->
  (forall p, with_key key p l1 = with_key key p l2) ->
  l1 = l2.
Proof.
  revert l2. induction l1 as [| x r1 IH]; intros l2 Hd1 Hd2 H.
  - destruct l2 as [| y r2]; [reflexivity |].
    specialize (H (key y)). rewrite with_key_cons in H.
    destruct (Req_dec_T (key y) (key y)); [discriminate | contradiction].
  - destruct l2 as [| y r2].
    + specialize (H (key x)). rewrite with_key_cons in H.
      destruct (Req_dec_T (key x) (key x)); [discriminate | contradiction].
    + assert (Hxy : key x <= key y).
      { apply (descending_head_greatest y x r2 Hd2).
        apply (with_key_In (key x)). rewrite <- H.
        apply with_key_In. split; [now left | reflexivity]. }
      assert (Hyx : key y <= key x).
      { apply (descending_head_greatest x y r1 Hd1).
        apply (with_key_In (key y)). rewrite H.
        apply with_key_In. split; [now left | reflexivity]. }
      assert (Ek : key y = key x) by lra.
      assert (Exy : x = y).
      { specialize (H (key x)). rewrite !with_key_cons, Ek in H.
        destruct (Req_dec_T (key x) (key x)); [congruence | contradiction]. }
      subst y. f_equal. apply IH.
      * unfold descending in *. now inversion Hd1.
      * unfold descending in *. now inversion Hd2.
      * intros p. specialize (H p). rewrite !with_key_cons in H.
        destruct (Req_dec_T (key x) p); congruence.
Qed.

End KeyedOrder.

(** The specification leaves one order of visit: the one the allocator
    computes. *)
Lemma stable_descending_unique (tickets visited : list Ticket) :
  stable_descending tickets visited -> visited = sorted_tickets tickets.
Proof.
  intros [Hd Hs]. apply (descending_determined calculate_ticket_priority).
  - exact Hd.
  - apply sorted_reverse_descending.
  - intros p. rewrite Hs. symmetry. apply sorted_reverse_stable.
Qed.

Lemma sorted_tickets_stable_descending (tickets : list Ticket) :
  stable_descending tickets (sorted_tickets tickets).
Proof.
  split; [apply sorted_reverse_descending |].
  intros p. apply sorted_reverse_stable.
Qed.

Lemma two_splits {X : Type} (f1 f2 b1 b2 : list X) (a a' : X) :
  (f1 ++ a :: b1)%list = (f2 ++ a' :: b2)%list ->
  (a = a' /\ f1 = f2 /\ b1 = b2) \/
  (In a f2 /\ In a' b1) \/
  (In a' f1 /\ In a b2).
Proof.
  revert f2. induction f1 as [| x f1 IH]; intros f2 E.
  - destruct f2 as [| y f2]; simpl in E.
    + inversion E. auto.
    + inversion E; subst. right. left. split; [now left |].
      apply in_or_app. right. now left.
  - destruct f2 as [| y f2]; simpl in E.
    + inversion E; subst. right. right. split; [now left |].
      apply in_or_app. right. now left.
    + inversion E as [[Exy E']]. subst y.
      destruct (IH f2 E') as [(-> & -> & ->) | [[H1 H2] | [H1 H2]]].
      * auto.
      * right. left. split; [now right | exact H2].
      * right. right. split; [now right | exact H2].
Qed.

(** Among the agents of a list at most one is a first maximiser. *)
Lemma first_maximiser_unique (t : Ticket) (cs : gmap string Z)
    (agents : list Agent) (a a' : Agent) :
  first_maximiser t cs agents a -> first_maximiser t cs agents a' -> a = a'.
Proof.
  intros (f1 & b1 & E1 & Hav1 & Hf1 & Hb1) (f2 & b2 & E2 & Hav2 & Hf2 & Hb2).
  rewrite E1 in E2.
  destruct (two_splits f1 f2 b1 b2 a a' E2) as [(E & _) | [[H1 H2] | [H1 H2]]].
  - exact E.
  - pose proof (Hf2 a H1 Hav1). pose proof (Hb1 a' H2 Hav2). lra.
  - pose proof (Hf1 a' H1 Hav2). pose proof (Hb2 a H2 Hav1). lra.
Qed.

Lemma decides_unique (agents : list Agent) (st : Alloc) (t : Ticket)
    (out1 out2 : Alloc) :
  decides agents st t out1 -> decides agents st t out2 -> out1 = out2.
Proof.
  intros H1 H2.
  destruct H1 as [a Hmax Hgt | Hall]; destruct H2 as [a' Hmax' Hgt' | Hall'].
  - now rewrite (first_maximiser_unique _ _ _ _ _ Hmax Hmax').
  - exfalso. apply first_maximiser_member in Hmax. destruct Hmax as [Hin Hav].
    specialize (Hall' a Hin Hav). lra.
  - exfalso. apply first_maximiser_member in Hmax'. destruct Hmax' as [Hin Hav].
    specialize (Hall a' Hin Hav). lra.
  - reflexivity.
Qed.

(** The body of the outer loop takes an allowed decision. *)
Lemma allocate_decides (agents : list Agent) (st : Alloc) (t : Ticket) :
  decides agents st t (allocate agents st t).
Proof.
  rewrite allocate_cases. destruct (chosen agents st t) as [a |] eqn:E.
  - apply chosen_some in E. destruct E as [Hmax Hgt].
    unfold assigned_to. now apply decides_assign.
  - apply decides_skip. now apply chosen_none.
Qed.

Lemma follows_fold (agents : list Agent) (ts : list Ticket) (st : Alloc) :
  follows agents ts st (fold_left (allocate agents) ts st).
Proof.
  revert st. induction ts as [| t ts IH]; intros st; [constructor |].
  simpl. eapply follows_cons; [apply allocate_decides | apply IH].
Qed.

Lemma follows_unique (agents : list Agent) (ts : list Ticket) (st out1 out2 : Alloc) :
  follows agents ts st out1 -> follows agents ts st out2 -> out1 = out2.
Proof.
  intros H1. revert out2.
  induction H1 as [st | t rest st mid out Hd _ IH]; intros out2 H2;
    inversion H2; subst.
  - reflexivity.
  - apply IH.
    match goal with
    | D : decides _ _ _ ?m |- follows _ _ mid _ =>
        now rewrite (decides_unique _ _ _ _ _ Hd D)
    end.
Qed.

(** The allocator's own run is one the specification allows. *)
Lemma run_allocator_specified (agents : list Agent) (tickets : list Ticket) :
  specified_run agents tickets (run_allocator agents tickets).
Proof.
  exists (sorted_tickets tickets).
  split; [apply sorted_tickets_stable_descending | apply follows_fold].
Qed.

(** C9: any two runs on the same agent list and the same ticket list that
    visit the tickets in a stable descending order of priority and give
    each ticket to a first maximiser among the "Available" agents end in
    the same state, the one the allocator computes: the same assignments
    in the same order, with the same rationale text, and the same
    warnings. The stable order and the first-seen rule leave no choice. *)
Theorem specified_run_unique
    (agents : list Agent) (tickets : list Ticket) (out1 out2 : Alloc) :
  specified_run agents tickets out1 ->
  specified_run agents tickets out2 ->
  out1 = out2 /\
  assignments out1 = assign_tickets agents tickets /\
  assignments out2 = assign_tickets agents tickets /\
  map rationale (assignments out1) = map rationale (assignments out2) /\
  printed out1 = printed out2.
Proof.
  assert (Hrun : forall out, specified_run agents tickets out ->
                             out = run_allocator agents tickets).
  { intros out (visited & Hv & Hf).
    apply stable_descending_unique in Hv. subst visited.
    apply (follows_unique agents (sorted_tickets tickets) (initial_alloc agents));
      [exact Hf | apply follows_fold]. }
  intros H1 H2. rewrite (Hrun out1 H1), (Hrun out2 H2). repeat split.
Qed.

Lemma specified_run_unique_witness :
  exists out : Alloc,
    specified_run [busy_agent; idle_agent] [quiet_ticket; outage_ticket] out /\
    assignments out
    = assign_tickets [busy_agent; idle_agent] [quiet_ticket; outage_ticket].
Proof.
  exists (run_allocator [busy_agent; idle_agent] [quiet_ticket; outage_ticket]).
  split; [apply run_allocator_specified |].
  apply (specified_run_unique [busy_agent; idle_agent] [quiet_ticket; outage_ticket]
           _ _ (run_allocator_specified _ _) (run_allocator_specified _ _)).
Defined.

(** Stability is what the uniqueness rests on: the two tickets below have
    the same priority, visiting them in the other order is still a
    descending rearrangement of the input and every decision is still an
    allowed one, but the assignments come out in another order. *)
Lemma unstable_order_changes_output :
  exists (visited : list Ticket) (out : Alloc),
    Permutation [quiet_ticket; vpn_ticket] visited /\
    descending calculate_ticket_priority visited /\
    follows [idle_agent] visited (initial_alloc [idle_agent]) out /\
    map a_ticket_id (assignments out) = ["T3"; "T1"] /\
    map a_ticket_id (assign_tickets [idle_agent] [quiet_ticket; vpn_ticket])
    = ["T1"; "T3"].
Proof.
  set (agents := [idle_agent]).
  assert (Hwf : forall a, In a agents ->
     (forall skill level, In (skill, level) (skills a) -> (0 < level)%Z) /\
     (0 <= experience_level a)%Z).
  { intros a [<- | []]. split; [| simpl; lia].
    intros skill level [E | []]. inversion E. lia. }
  assert (Hav : exists a, In a agents /\ availability_status a = "Available")
    by (exists idle_agent; split; [now left | reflexivity]).
  assert (Hids : forall t1 t2,
    map a_ticket_id
        (assignments (fold_left (allocate agents) [t1; t2] (initial_alloc agents)))
    = [ticket_id t1; ticket_id t2]).
  { intros t1 t2. cbn [fold_left].
    destruct (greedy_choice_when_levels_sound agents (initial_alloc agents) t1 Hwf Hav)
      as (a1 & _ & _ & ->).
    destruct (greedy_choice_when_levels_sound agents
                (assigned_to (initial_alloc agents) t1 a1) t2 Hwf Hav)
      as (a2 & _ & _ & ->).
    reflexivity. }
  exists [vpn_ticket; quiet_ticket],
         (fold_left (allocate agents) [vpn_ticket; quiet_ticket] (initial_alloc agents)).
  split; [apply perm_swap |]. split; [| split; [apply follows_fold | split]].
  - unfold descending.
    apply SSorted_cons;
      [apply SSorted_cons; [apply SSorted_nil | apply List.Forall_nil]
      | apply List.Forall_cons; [| apply List.Forall_nil]].
    rewrite quiet_ticket_priority, vpn_ticket_priority. lra.
  - apply Hids.
  - unfold assign_tickets, run_allocator, sorted_tickets.
    cbn [sorted_reverse place].
    rewrite quiet_ticket_priority, vpn_ticket_priority.
    destruct (Rlt_dec 1 1) as [H | _]; [lra |]. apply Hids.
Qed.


(** * Further properties of the scoring model and the allocator *)

(** ** Keyword extraction *)

Ltac each_ascii c :=
  destruct c as [[] [] [] [] [] [] [] []]; vm_compute; auto.

Lemma clean_char_kind (c : ascii) :
  Text.is_space (clean_char c) = true \/
  (Text.is_space (clean_char c) = false /\ keyword_char (clean_char c) = true).
Proof. each_ascii c. Qed.

Lemma lower_char_idempotent (c : ascii) :
  Text.lower_char (Text.lower_char c) = Text.lower_char c.
Proof. each_ascii c. Qed.

Lemma map_chars_map_chars (f g : ascii -> ascii) (s : string) :
  Text.map_chars f (Text.map_chars g s) = Text.map_chars (fun c => f (g c)) s.
Proof. induction s as [| c s IH]; simpl; [reflexivity | now rewrite IH]. Qed.

Lemma map_chars_app (f : ascii -> ascii) (s1 s2 : string) :
  Text.map_chars f (s1 ++ s2) = (Text.map_chars f s1 ++ Text.map_chars f s2)%string.
Proof. induction s1 as [| c s1 IH]; simpl; [reflexivity | now rewrite IH]. Qed.

Lemma strip_lower_clean (s : string) :
  strip_punctuation (Text.lower s) = Text.map_chars clean_char s.
Proof.
  unfold strip_punctuation, Text.lower. rewrite map_chars_map_chars. reflexivity.
Qed.

Lemma all_chars_of_list (p : ascii -> bool) (l : list ascii) :
  all_chars p (string_of_list_ascii l) = forallb p l.
Proof. induction l as [| c l IH]; simpl; [reflexivity | now rewrite IH]. Qed.

Lemma forallb_reversed (p : ascii -> bool) (l : list ascii) :
  forallb p (rev l) = forallb p l.
Proof.
  induction l as [| c l IH]; simpl; [reflexivity |].
  rewrite forallb_app, IH. simpl. rewrite andb_true_r. apply andb_comm.
Qed.

(** The words [str.split] cuts out of a text whose characters are white
    space or satisfy [p] are made of characters that satisfy [p]. *)
Lemma split_from_chars (p : ascii -> bool) (s : string) (cur : list ascii) :
  forallb p cur = true ->
  all_chars (fun c => Text.is_space c || p c) s = true ->
  forall w, In w (Text.split_from cur s) -> all_chars p w = true.
Proof.
  intros Hcur Hs. revert cur Hcur Hs.
  induction s as [| c s IH]; intros cur Hcur Hs w Hw; simpl in Hw.
  - destruct cur as [| x cur]; [destruct Hw |].
    destruct Hw as [<- | []].
    rewrite all_chars_of_list, forallb_reversed. exact Hcur.
  - simpl in Hs. apply andb_prop in Hs. destruct Hs as [Hc Hs].
    destruct (Text.is_space c) eqn:Esp.
    + destruct cur as [| x cur].
      * now apply (IH [] eq_refl Hs).
      * destruct Hw as [<- | Hw].
        -- rewrite all_chars_of_list, forallb_reversed. exact Hcur.
        -- now apply (IH [] eq_refl Hs).
    + simpl in Hc. apply (IH (c :: cur)); [| exact Hs | exact Hw].
      simpl. now rewrite Hc, Hcur.
Qed.

Lemma all_chars_map_chars (p : ascii -> bool) (f : ascii -> ascii) (s : string) :
  (forall c, p (f c) = true) -> all_chars p (Text.map_chars f s) = true.
Proof.
  intros H. induction s as [| c s IH]; simpl; [reflexivity |].
  now rewrite H, IH.
Qed.

(** X1: for a ticket whose title and description are ASCII text, every
    extracted keyword is longer than two characters, is not a stop word,
    and is made only of lower-case letters, digits and underscores (no
    white space, no punctuation, no upper-case letter). *)
Theorem extracted_keywords_are_clean (t : Ticket) (w : string) :
  ascii_text (title t) = true ->
  ascii_text (description t) = true ->
  In w (extract_keywords_from_ticket t) ->
  (2 < String.length w)%nat /\
  ~ In w stop_words /\
  all_chars keyword_char w = true.
Proof.
  unfold extract_keywords_from_ticket. intros _ _ H.
  apply filter_In in H. destruct H as [Hin Hcond].
  apply andb_prop in Hcond. destruct Hcond as [Hlen Hstop].
  split; [now apply Nat.ltb_lt |]. split.
  - intros Hmem. apply negb_true_iff in Hstop.
    assert (Text.mem w stop_words = true); [| congruence].
    unfold Text.mem. apply existsb_exists. exists w. split; [exact Hmem |].
    apply String.eqb_refl.
  - unfold ticket_text, Text.split in Hin. rewrite strip_lower_clean in Hin.
    apply (split_from_chars keyword_char _ [] eq_refl) in Hin; [exact Hin |].
    apply all_chars_map_chars. intros c.
    destruct (clean_char_kind c) as [-> | [_ ->]]; [reflexivity | apply orb_true_r].
Qed.

Lemma extracted_keywords_are_clean_witness :
  (2 < String.length "vpn")%nat /\ ~ In "vpn" stop_words /\
  all_chars keyword_char "vpn" = true.
Proof.
  apply (extracted_keywords_are_clean vpn_ticket "vpn");
    [reflexivity | reflexivity | vm_compute; auto].
Defined.

(** ** Upper and lower case in the ticket text *)

Lemma ticket_text_lowered (t : Ticket) :
  ticket_text t
  = (Text.lower (title t) ++ " " ++ Text.lower (description t))%string.
Proof.
  unfold ticket_text, Text.lower. now rewrite !map_chars_app.
Qed.

(** X2: the scorers read the ticket only through the lower-cased title and
    description: two tickets that agree up to the case of their letters
    get the same keywords, the same priority and, with every agent and
    in-batch count, the same skill match and the same composite score and
    score details. *)
Theorem scoring_ignores_case (t t' : Ticket) :
  same_up_to_case t t' ->
  extract_keywords_from_ticket t = extract_keywords_from_ticket t' /\
  calculate_ticket_priority t = calculate_ticket_priority t' /\
  (forall a, calculate_skill_match_score t a = calculate_skill_match_score t' a) /\
  (forall a n, calculate_composite_score_with_fairness t a n
               = calculate_composite_score_with_fairness t' a n).
Proof.
  intros [Ht Hd].
  assert (Htext : ticket_text t = ticket_text t')
    by (rewrite !ticket_text_lowered; congruence).
  assert (Hk : extract_keywords_from_ticket t = extract_keywords_from_ticket t')
    by (unfold extract_keywords_from_ticket; now rewrite Htext).
  assert (Hp : calculate_ticket_priority t = calculate_ticket_priority t')
    by (unfold calculate_ticket_priority, bump, mentions; now rewrite Ht, Hd).
  assert (Hs : forall a, calculate_skill_match_score t a
                         = calculate_skill_match_score t' a)
    by (intros a; unfold calculate_skill_match_score; now rewrite Htext, Hk).
  repeat split; auto.
  intros a n. unfold calculate_composite_score_with_fairness. now rewrite Hs, Hp.
Qed.

Lemma scoring_ignores_case_witness :
  calculate_ticket_priority outage_ticket = calculate_ticket_priority shouted_ticket.
Proof.
  apply (scoring_ignores_case outage_ticket shouted_ticket).
  split; vm_compute; reflexivity.
Defined.

(** ** Whole-word search *)

Lemma last_or_cons (before : option ascii) (c : ascii) (s : string) :
  last_or before (String c s) = last_or (Some c) s.
Proof. unfold last_or. simpl. now destruct (last_char s). Qed.

Lemma eat_spec (term s rest : string) (before last : option ascii) :
  Text.eat before term s = Some (last, rest) <->
  s = (term ++ rest)%string /\ last = last_or before term.
Proof.
  revert before s. induction term as [| t term IH]; intros before s.
  - simpl. unfold last_or. simpl. split.
    + intros E. inversion E. auto.
    + intros [-> ->]. reflexivity.
  - rewrite last_or_cons. simpl. destruct s as [| c s].
    + split; [discriminate | intros [E _]; discriminate].
    + destruct (Ascii.eqb_spec t c) as [-> | Hne].
      * rewrite IH. split.
        -- intros [-> ->]. auto.
        -- intros [E ->]. inversion E. auto.
      * split; [discriminate |]. intros [E _]. inversion E. congruence.
Qed.

Lemma bounded_match_here_spec (term s : string) (before : option ascii) :
  Text.bounded_match_here before term s = true <->
  exists post : string,
    s = (term ++ post)%string /\
    Text.boundary before (Text.head_char (term ++ post)) = true /\
    Text.boundary (last_or before term) (Text.head_char post) = true.
Proof.
  unfold Text.bounded_match_here. split.
  - intros H. apply andb_prop in H. destruct H as [H1 H2].
    destruct (Text.eat before term s) as [[last rest] |] eqn:E; [| discriminate].
    apply eat_spec in E. destruct E as [-> ->]. eauto.
  - intros (post & -> & H1 & H2). rewrite H1. simpl.
    assert (Heat : Text.eat before term (term ++ post)
                   = Some (last_or before term, post))
      by (apply eat_spec; auto).
    now rewrite Heat.
Qed.

Lemma bounded_search_spec (term s : string) (before : option ascii) :
  Text.bounded_search before term s = true <->
  exists pre post : string,
    s = (pre ++ term ++ post)%string /\
    Text.boundary (last_or before pre) (Text.head_char (term ++ post)) = true /\
    Text.boundary (last_or (last_or before pre) term) (Text.head_char post) = true.
Proof.
  revert before. induction s as [| c s IH]; intros before;
    cbn [Text.bounded_search]; rewrite orb_true_iff, bounded_match_here_spec.
  - split.
    + intros [(post & E & H1 & H2) | H]; [| discriminate].
      exists "", post. auto.
    + intros (pre & post & E & H1 & H2). left.
      destruct pre; [| discriminate]. exists post. auto.
  - rewrite IH. split.
    + intros [(post & E & H1 & H2) | (pre & post & -> & H1 & H2)].
      * exists "", post. auto.
      * exists (String c pre), post. simpl. rewrite !last_or_cons. auto.
    + intros (pre & post & E & H1 & H2). destruct pre as [| c' pre].
      * left. exists post. auto.
      * right. simpl in E. inversion E; subst.
        rewrite !last_or_cons in H1, H2. eauto.
Qed.

Lemma head_char_app (term post : string) :
  Text.word_side (Text.head_char term) = true ->
  Text.head_char (term ++ post) = Text.head_char term.
Proof. destruct term; [discriminate | reflexivity]. Qed.

Lemma last_or_word_term (before : option ascii) (term : string) :
  Text.word_side (last_char term) = true -> last_or before term = last_char term.
Proof. unfold last_or. destruct (last_char term); [reflexivity | discriminate]. Qed.

(** X3: for terms that begin and end with a word character,
    [has_domain_term] holds exactly when some term occurs in the text as a
    whole word: the text is [pre ++ term ++ post] where [pre] does not end
    with a word character and [post] does not begin with one. *)
Theorem domain_term_is_whole_word (text : string) (terms : list string) :
  (forall term, In term terms -> word_term term) ->
  (has_domain_term text terms = true <->
   exists term pre post : string,
     In term terms /\
     text = (pre ++ term ++ post)%string /\
     Text.word_side (last_char pre) = false /\
     Text.word_side (Text.head_char post) = false).
Proof.
  intros Hterms. unfold has_domain_term. rewrite existsb_exists.
  assert (Hside : forall term pre post, word_term term ->
    (Text.boundary (last_or None pre) (Text.head_char (term ++ post)) = true /\
     Text.boundary (last_or (last_or None pre) term) (Text.head_char post) = true)
    <-> (Text.word_side (last_char pre) = false /\
         Text.word_side (Text.head_char post) = false)).
  { intros term pre post [Hh Hl].
    rewrite (head_char_app term post Hh).
    rewrite (last_or_word_term (last_or None pre) term Hl).
    unfold Text.boundary. rewrite Hh, Hl.
    assert (E : Text.word_side (last_or None pre) = Text.word_side (last_char pre))
      by (unfold last_or; now destruct (last_char pre)).
    rewrite E.
    destruct (Text.word_side (last_char pre)),
             (Text.word_side (Text.head_char post)); simpl; intuition discriminate. }
  split.
  - intros (term & Hin & H). apply bounded_search_spec in H.
    destruct H as (pre & post & E & H12).
    exists term, pre, post. split; [exact Hin |]. split; [exact E |].
    apply (Hside term pre post (Hterms term Hin)). exact H12.
  - intros (term & pre & post & Hin & E & H12).
    exists term. split; [exact Hin |]. apply bounded_search_spec.
    exists pre, post. split; [exact E |].
    apply (Hside term pre post (Hterms term Hin)). exact H12.
Qed.

Lemma domain_term_is_whole_word_witness :
  has_domain_term "the macbook is slow" ["mac"; "macbook"] = true.
Proof.
  apply (domain_term_is_whole_word "the macbook is slow" ["mac"; "macbook"]).
  - intros term [<- | [<- | []]]; split; reflexivity.
  - exists "macbook", "the ", " is slow".
    split; [right; left; reflexivity |]. repeat split.
Defined.

(** ** Substring search *)

Lemma append_cons (c : ascii) (s1 s2 : string) :
  (String c s1 ++ s2)%string = String c (s1 ++ s2).
Proof. reflexivity. Qed.

Lemma prefix_spec (p s : string) :
  String.prefix p s = true <-> exists post : string, s = (p ++ post)%string.
Proof.
  revert s. induction p as [| c p IH]; intros s.
  - split; [eauto | intros _; now destruct s].
  - destruct s as [| d s]; simpl.
    + split; [discriminate | intros [post E]; discriminate].
    + destruct (ascii_dec c d) as [-> | Hne].
      * rewrite IH. split; intros [post E]; exists post;
          rewrite append_cons in *; congruence.
      * split; [discriminate |]. intros [post E].
        rewrite append_cons in E. congruence.
Qed.

(** [needle in hay] holds exactly when [hay] is [pre ++ needle ++ post]. *)
Lemma contains_spec (needle hay : string) :
  Text.contains needle hay = true <->
  exists pre post : string, hay = (pre ++ needle ++ post)%string.
Proof.
  induction hay as [| c hay IH]; cbn [Text.contains].
  - destruct (String.prefix needle "") eqn:E.
    + split; [| reflexivity]. intros _. apply prefix_spec in E.
      destruct E as [post E]. exists "", post. exact E.
    + split; [discriminate |]. intros (pre & post & H).
      destruct pre; [| discriminate]. simpl in H.
      assert (String.prefix needle "" = true) by (apply prefix_spec; eauto).
      congruence.
  - destruct (String.prefix needle (String c hay)) eqn:E.
    + split; [| reflexivity]. intros _. apply prefix_spec in E.
      destruct E as [post E]. exists "", post. exact E.
    + rewrite IH. split.
      * intros (pre & post & ->). exists (String c pre), post. reflexivity.
      * intros (pre & post & H). destruct pre as [| c' pre].
        -- simpl in H.
           assert (String.prefix needle (String c hay) = true)
             by (apply prefix_spec; eauto).
           congruence.
        -- rewrite append_cons in H. inversion H. eauto.
Qed.

(** X4: a text that [has_domain_term] accepts contains one of the terms as
    a plain substring, the test the phrase scoring uses; and no text is
    accepted for an empty list of terms. *)
Theorem domain_term_is_substring (text : string) (terms : list string) :
  has_domain_term text terms = true ->
  terms <> [] /\
  exists term, In term terms /\ Text.contains term text = true.
Proof.
  unfold has_domain_term. intros H. split.
  - intros ->. discriminate.
  - apply existsb_exists in H. destruct H as (term & Hin & H).
    exists term. split; [exact Hin |].
    apply bounded_search_spec in H. destruct H as (pre & post & E & _).
    apply contains_spec. eauto.
Qed.

Lemma domain_term_is_substring_witness :
  exists term, In term ["mac"; "macbook"] /\
               Text.contains term "the macbook is slow" = true.
Proof.
  apply (domain_term_is_substring "the macbook is slow" ["mac"; "macbook"]).
  reflexivity.
Defined.

(** ** Domain multiplier *)

Ltac split_conditions :=
  repeat match goal with
         | |- context [if ?b then _ else _] => destruct b; cbn [andb]
         end.

(** X5: the domain multiplier is 0.3 exactly for an opposing-platform pair
    of skill and ticket and at least 1.0 otherwise; it is 1.0 for every
    skill when the ticket shows no domain signal. *)
Theorem domain_multiplier_penalty (fl : DomainFlags) (skill : string) :
  (domain_multiplier fl skill = 0.3 <-> opposing_platform fl skill) /\
  (~ opposing_platform fl skill -> 1 <= domain_multiplier fl skill) /\
  (no_domain_signal fl -> domain_multiplier fl skill = 1.0).
Proof.
  split; [| split].
  - unfold domain_multiplier, opposing_platform.
    destruct (Text.contains "Linux" skill), (any_in windows_terms skill),
             (is_linux_ticket fl), (is_windows_ticket fl); cbn [andb];
      split_conditions;
      (split; intros H;
       [first [exfalso; lra | solve [intuition]]
       | first [lra | exfalso; intuition discriminate]]).
  - unfold domain_multiplier, opposing_platform.
    destruct (Text.contains "Linux" skill), (any_in windows_terms skill),
             (is_linux_ticket fl), (is_windows_ticket fl); cbn [andb];
      split_conditions; intros H;
      first [lra | exfalso; apply H; solve [intuition]].
  - unfold no_domain_signal, domain_multiplier.
    intros (H1 & H2 & H3 & H4 & H5 & H6 & H7 & H8).
    rewrite H1, H2, H3, H4, H5, H6, H7, H8, !andb_false_r. reflexivity.
Qed.

Lemma domain_multiplier_penalty_witness :
  1 <= domain_multiplier (domain_flags "printer tray paper jam") "Hardware_Diagnostics" /\
  domain_multiplier (domain_flags "please call me back") "Linux_Administration" = 1.0.
Proof.
  split.
  - apply (domain_multiplier_penalty (domain_flags "printer tray paper jam")
             "Hardware_Diagnostics").
    intros [(H & _) | (_ & H & _)]; vm_compute in H; discriminate.
  - apply (domain_multiplier_penalty (domain_flags "please call me back")
             "Linux_Administration").
    repeat split.
Defined.

(** ** Raw skill score *)

Lemma fold_left_gain {A : Type} (f : Z -> A -> Z) (g : A -> Z) (l : list A) (s : Z) :
  (forall acc x, f acc x = (acc + g x)%Z) ->
  fold_left f l s = (s + sumZ (map g l))%Z.
Proof.
  intros H. revert s. induction l as [| x l IH]; intros s; simpl.
  - lia.
  - rewrite IH, H. lia.
Qed.

Lemma sumZ_nonneg (l : list Z) :
  (forall x, In x l -> (0 <= x)%Z) ->
  (0 <= sumZ l)%Z /\ ((0 < sumZ l)%Z <-> exists x, In x l /\ (0 < x)%Z).
Proof.
  induction l as [| y l IH]; intros H; simpl.
  - split; [lia |]. split; [lia | intros (x & [] & _)].
  - assert (Hy : (0 <= y)%Z) by (apply H; now left).
    destruct IH as [IH1 IH2]; [intros x Hx; apply H; now right |].
    split; [lia |]. split.
    + intros Hpos. destruct (Z_lt_le_dec 0 y) as [Hlt | Hle].
      * exists y. split; [now left | exact Hlt].
      * destruct (proj1 IH2 ltac:(lia)) as (x & Hx & Hxpos).
        exists x. split; [now right | exact Hxpos].
    + intros (x & [-> | Hx] & Hxpos); [lia |].
      assert (0 < sumZ l)%Z by (apply IH2; eauto). lia.
Qed.

Lemma raw_skill_score_sum (text : string) (tks : list string) (skill : string) :
  raw_skill_score text tks skill =
    (sumZ (map (phrase_gain text) (keywords_get skill_keywords skill))
     + sumZ (map (fun kw => sumZ (map (pair_gain kw) tks))
                 (keywords_get skill_keywords skill))
     + sumZ (map (name_gain tks) (skill_name_words skill)))%Z.
Proof.
  unfold raw_skill_score, name_hits, token_hits, phrase_hits.
  rewrite (fold_left_gain _ (name_gain tks)).
  2: { intros acc w. unfold name_gain. destruct (Text.mem w tks); lia. }
  rewrite (fold_left_gain _ (fun kw => sumZ (map (pair_gain kw) tks))).
  2: { intros acc kw. rewrite (fold_left_gain _ (pair_gain kw)); [reflexivity |].
       intros acc' tk. unfold pair_gain.
       destruct (String.eqb kw tk); [lia |].
       destruct (Text.contains kw tk || Text.contains tk kw); lia. }
  rewrite (fold_left_gain _ (phrase_gain text)).
  2: { intros acc kw. unfold phrase_gain. destruct (Text.contains kw text); lia. }
  lia.
Qed.

Lemma append_empty_r (s : string) : (s ++ "")%string = s.
Proof.
  induction s as [| c s IH]; [reflexivity |]. rewrite append_cons. now rewrite IH.
Qed.

Lemma contains_refl (s : string) : Text.contains s s = true.
Proof.
  apply contains_spec. exists "", "". now rewrite append_empty_r.
Qed.

Lemma pair_gain_pos (kw tk : string) :
  (0 <= pair_gain kw tk)%Z /\
  ((0 < pair_gain kw tk)%Z <->
   Text.contains kw tk = true \/ Text.contains tk kw = true).
Proof.
  unfold pair_gain. destruct (String.eqb_spec kw tk) as [-> | Hne].
  - split; [lia |]. split; [intros _; left; apply contains_refl | lia].
  - destruct (Text.contains kw tk), (Text.contains tk kw); simpl;
      (split; [lia |]); split; auto; try lia; intros [H | H]; discriminate.
Qed.

Lemma mem_In (w : string) (ws : list string) : Text.mem w ws = true <-> In w ws.
Proof.
  unfold Text.mem. rewrite existsb_exists. split.
  - intros (x & Hx & E). apply String.eqb_eq in E. now subst.
  - intros H. exists w. split; [exact H | apply String.eqb_refl].
Qed.

(** X6: the raw score of a skill is never negative, and it is positive,
    so that the skill is matched, exactly when there is some evidence for
    it: a lexicon keyword of the skill occurs in the ticket text, or a
    lexicon keyword and a ticket keyword contain one another, or a word of
    the skill's own name is a ticket keyword. *)
Theorem raw_skill_score_evidence (text : string) (tks : list string) (skill : string) :
  (0 <= raw_skill_score text tks skill)%Z /\
  ((0 < raw_skill_score text tks skill)%Z <->
   (exists kw, In kw (keywords_get skill_keywords skill) /\
               Text.contains kw text = true) \/
   (exists kw tk, In kw (keywords_get skill_keywords skill) /\ In tk tks /\
                  (Text.contains kw tk = true \/ Text.contains tk kw = true)) \/
   (exists w, In w (skill_name_words skill) /\ In w tks)).
Proof.
  rewrite raw_skill_score_sum.
  set (kws := keywords_get skill_keywords skill).
  assert (Hinner : forall kw,
    (0 <= sumZ (map (pair_gain kw) tks))%Z /\
    ((0 < sumZ (map (pair_gain kw) tks))%Z <->
     exists tk, In tk tks /\
                (Text.contains kw tk = true \/ Text.contains tk kw = true))).
  { intros kw.
    destruct (sumZ_nonneg (map (pair_gain kw) tks)) as [H0 H1].
    { intros x Hx. apply in_map_iff in Hx. destruct Hx as (tk & <- & _).
      apply pair_gain_pos. }
    split; [exact H0 |]. rewrite H1. split.
    - intros (x & Hx & Hpos). apply in_map_iff in Hx.
      destruct Hx as (tk & <- & Htk). exists tk. split; [exact Htk |].
      now apply pair_gain_pos.
    - intros (tk & Htk & H). exists (pair_gain kw tk).
      split; [now apply in_map | now apply pair_gain_pos]. }
  destruct (sumZ_nonneg (map (phrase_gain text) kws)) as [A0 A1].
  { intros x Hx. apply in_map_iff in Hx. destruct Hx as (kw & <- & _).
    unfold phrase_gain. destruct (Text.contains kw text); lia. }
  destruct (sumZ_nonneg (map (fun kw => sumZ (map (pair_gain kw) tks)) kws))
    as [B0 B1].
  { intros x Hx. apply in_map_iff in Hx. destruct Hx as (kw & <- & _).
    apply Hinner. }
  destruct (sumZ_nonneg (map (name_gain tks) (skill_name_words skill))) as [C0 C1].
  { intros x Hx. apply in_map_iff in Hx. destruct Hx as (w & <- & _).
    unfold name_gain. destruct (Text.mem w tks); lia. }
  split; [lia |]. split.
  - intros Hpos.
    assert (Hcase : (0 < sumZ (map (phrase_gain text) kws))%Z \/
                    (0 < sumZ (map (fun kw => sumZ (map (pair_gain kw) tks)) kws))%Z \/
                    (0 < sumZ (map (name_gain tks) (skill_name_words skill)))%Z)
      by lia.
    destruct Hcase as [H | [H | H]].
    + left. apply A1 in H. destruct H as (x & Hx & Hxpos).
      apply in_map_iff in Hx. destruct Hx as (kw & <- & Hkw).
      exists kw. split; [exact Hkw |].
      unfold phrase_gain in Hxpos. destruct (Text.contains kw text); [reflexivity | lia].
    + right. left. apply B1 in H. destruct H as (x & Hx & Hxpos).
      apply in_map_iff in Hx. destruct Hx as (kw & <- & Hkw).
      apply Hinner in Hxpos. destruct Hxpos as (tk & Htk & Hc).
      exists kw, tk. auto.
    + right. right. apply C1 in H. destruct H as (x & Hx & Hxpos).
      apply in_map_iff in Hx. destruct Hx as (w & <- & Hw).
      exists w. split; [exact Hw |]. apply mem_In.
      unfold name_gain in Hxpos. destruct (Text.mem w tks); [reflexivity | lia].
  - intros [(kw & Hkw & Hc) | [(kw & tk & Hkw & Htk & Hc) | (w & Hw & Hin)]].
    + assert (0 < sumZ (map (phrase_gain text) kws))%Z; [| lia].
      apply A1. exists (phrase_gain text kw). split; [now apply in_map |].
      unfold phrase_gain. rewrite Hc. lia.
    + assert (0 < sumZ (map (fun kw => sumZ (map (pair_gain kw) tks)) kws))%Z; [| lia].
      apply B1. exists (sumZ (map (pair_gain kw) tks)).
      split; [now apply (in_map (fun kw => sumZ (map (pair_gain kw) tks))) |].
      apply Hinner. eauto.
    + assert (0 < sumZ (map (name_gain tks) (skill_name_words skill)))%Z; [| lia].
      apply C1. exists (name_gain tks w). split; [now apply in_map |].
      unfold name_gain. apply mem_In in Hin. rewrite Hin. lia.
Qed.

(** ** Skill match: edge cases *)

Lemma filter_none {A : Type} (f : A -> bool) (l : list A) :
  (forall x, In x l -> f x = false) -> List.filter f l = [].
Proof.
  induction l as [| x l IH]; intros H; [reflexivity |].
  simpl. rewrite (H x) by now left. apply IH. intros y Hy. apply H. now right.
Qed.

(** X7: when none of the agent's skills has a positive raw score for the
    ticket (in particular when the agent holds no skill), the skill match
    score is 0 with no matched skill, the skill-floor penalty 0.3 applies,
    the composite score is
    (workload * 0.3 + experience * 0.1) * priority * 0.3, and it is still
    positive when the experience level is not negative. *)
Theorem unmatched_agent_score (t : Ticket) (a : Agent) (n : Z) :
  (forall skill level, In (skill, level) (skills a) ->
     raw_skill_score (ticket_text t) (extract_keywords_from_ticket t) skill = 0%Z) ->
  calculate_skill_match_score t a = (0, []) /\
  skill_penalty (details_of t a n) = 0.3 /\
  composite_of t a n =
    (calculate_workload_score a n * 0.3 + calculate_experience_score a * 0.1)
    * calculate_ticket_priority t * 0.3 /\
  ((0 <= experience_level a)%Z -> 0 < composite_of t a n).
Proof.
  intros Hraw.
  assert (Hs : calculate_skill_match_score t a = (0, [])).
  { rewrite skill_match_score_unfold.
    rewrite filter_none.
    2: { intros [skill level] Hin. unfold is_matched. cbn [fst].
         rewrite (Hraw skill level Hin). reflexivity. }
    cbn [map fold_left].
    destruct (0 <? List.length (skills a))%nat; [| reflexivity].
    f_equal. unfold Rdiv. apply Rmult_0_l. }
  assert (Hc : composite_of t a n =
    (calculate_workload_score a n * 0.3 + calculate_experience_score a * 0.1)
    * calculate_ticket_priority t * 0.3).
  { rewrite composite_unfold. unfold unpenalised_score. rewrite Hs. cbn [fst].
    destruct (penalty_for_cases 0) as [[_ ->] | [H _]]; lra. }
  split; [exact Hs |]. split; [| split; [exact Hc |]].
  - destruct (details_unfold t a n) as (_ & _ & -> & _). rewrite Hs. cbn [fst].
    destruct (penalty_for_cases 0) as [[_ ->] | [H _]]; lra.
  - intros He. rewrite Hc.
    pose proof (workload_score_pos a n).
    pose proof (experience_score_nonneg a He).
    pose proof (ticket_priority_range t).
    apply Rmult_lt_0_compat; [apply Rmult_lt_0_compat |]; lra.
Qed.

Lemma unmatched_agent_score_witness :
  calculate_skill_match_score vpn_ticket windows_generalist = (0, []) /\
  skill_penalty (details_of vpn_ticket windows_generalist 0) = 0.3.
Proof.
  destruct (unmatched_agent_score vpn_ticket windows_generalist 0) as (H1 & H2 & _).
  - intros skill level [E | []]. inversion E. vm_compute. reflexivity.
  - split; [exact H1 | exact H2].
Defined.

Lemma skill_level_of_key (sk : list (string * Z)) (skill : string) :
  In skill (map fst sk) ->
  exists level, skill_level_of sk skill = Some level /\ In (skill, level) sk.
Proof.
  induction sk as [| [k v] sk IH]; intros H; [destruct H |].
  simpl. destruct (String.eqb_spec k skill) as [-> | Hne].
  - exists v. split; [reflexivity | now left].
  - destruct H as [H | H]; [contradiction |].
    destruct (IH H) as (level & E & Hin). exists level. split; [exact E | now right].
Qed.

Lemma filter_sublist {A : Type} (f : A -> bool) (l : list A) :
  sublist (List.filter f l) l.
Proof.
  induction l as [| x l IH]; simpl; [constructor |].
  destruct (f x); now constructor.
Qed.

Lemma map_sublist {A B : Type} (f : A -> B) (l1 l2 : list A) :
  sublist l1 l2 -> sublist (map f l1) (map f l2).
Proof. induction 1; simpl; now constructor. Qed.

Lemma sublist_In {A : Type} (l1 l2 : list A) (x : A) :
  sublist l1 l2 -> In x l1 -> In x l2.
Proof.
  induction 1 as [| y l1 l2 _ IH | y l1 l2 _ IH]; intros H.
  - destruct H.
  - destruct H as [-> | H]; [now left | right; now apply IH].
  - right. now apply IH.
Qed.

(** X8: the matched skills are skills of the agent, in the order of the
    agent's skill mapping, and the details of the composite scorer carry
    the same list; so the proficiency lookup [agent['skills'][skill]] of
    the rationale finds a level for every matched skill. *)
Theorem matched_skills_are_held (t : Ticket) (a : Agent) (n : Z) :
  matched_skills (details_of t a n) = snd (calculate_skill_match_score t a) /\
  sublist (snd (calculate_skill_match_score t a)) (map fst (skills a)) /\
  forall skill,
    In skill (matched_skills (details_of t a n)) ->
    exists level,
      skill_level_of (skills a) skill = Some level /\ In (skill, level) (skills a).
Proof.
  destruct (details_unfold t a n) as (_ & Hm & _).
  assert (Hsub : sublist (snd (calculate_skill_match_score t a)) (map fst (skills a))).
  { rewrite skill_match_score_unfold. cbn [snd].
    apply map_sublist, filter_sublist. }
  split; [exact Hm |]. split; [exact Hsub |].
  intros skill Hin. rewrite Hm in Hin.
  apply skill_level_of_key. now apply (sublist_In _ _ _ Hsub).
Qed.

(** ** Fairness pressure *)

Lemma load_score_above_floor (n : Z) : (n <= 6)%Z -> 0.1 < load_score n.
Proof.
  intros H. rewrite load_score_decay by lia.
  assert (Hn : IZR n <= 6) by (apply IZR_le; lia).
  assert (H2 : exp 2 < 10).
  { replace 2 with (2 * 1) by lra. rewrite exp_double.
    pose proof exp_le_3. pose proof (exp_pos 1). nra. }
  assert (Hinv : / 10 < / exp 2).
  { apply Rinv_lt_contravar; [| exact H2].
    apply Rmult_lt_0_compat; [apply exp_pos | lra]. }
  assert (Hmono : exp (Ropp 2) <= exp (- (IZR n / 3))).
  { destruct (Req_dec (IZR n) 6) as [-> | Hne].
    - right. f_equal. lra.
    - left. apply exp_increasing. lra. }
  rewrite (exp_Ropp 2) in Hmono. lra.
Qed.

Lemma load_score_strictly_antitone (n m : Z) :
  (n < m)%Z -> (m < 8 \/ n <= 6)%Z -> load_score m < load_score n.
Proof.
  intros Hnm Hside.
  destruct (Z_lt_le_dec m 8) as [Hm | Hm].
  - rewrite !load_score_decay by lia. apply exp_increasing.
    assert (IZR n < IZR m) by (apply IZR_lt; lia). lra.
  - rewrite (load_score_overloaded m) by exact Hm.
    apply load_score_above_floor. lia.
Qed.

Lemma composite_by_parts (t : Ticket) (a : Agent) (n : Z) :
  composite_of t a n =
    (fst (calculate_skill_match_score t a) * 0.6
     + load_score (current_load a + n) * availability_factor a * 0.3
     + calculate_experience_score a * 0.1)
    * (calculate_ticket_priority t
       * penalty_for (fst (calculate_skill_match_score t a))).
Proof.
  rewrite composite_unfold. unfold unpenalised_score, calculate_workload_score. ring.
Qed.

Lemma priority_penalty_pos (t : Ticket) (s : R) :
  0 < calculate_ticket_priority t * penalty_for s.
Proof.
  pose proof (ticket_priority_range t).
  apply Rmult_lt_0_compat; [lra |].
  destruct (penalty_for_cases s) as [[_ ->] | [_ ->]]; lra.
Qed.

(** X9: every further in-batch assignment lowers an agent's composite
    score for a ticket strictly, as long as the agent's total load stays
    below 8 or starts at 6 or less; the skill score, the experience score,
    the priority and the penalty factor do not depend on the in-batch
    count. *)
Theorem in_batch_count_lowers_score (t : Ticket) (a : Agent) (n m : Z) :
  (n < m)%Z ->
  (current_load a + m < 8 \/ current_load a + n <= 6)%Z ->
  composite_of t a m < composite_of t a n /\
  skill_score (details_of t a m) = skill_score (details_of t a n) /\
  experience_score (details_of t a m) = experience_score (details_of t a n) /\
  ticket_priority (details_of t a m) = ticket_priority (details_of t a n) /\
  skill_penalty (details_of t a m) = skill_penalty (details_of t a n).
Proof.
  intros Hnm Hside. split.
  - rewrite !composite_by_parts.
    apply Rmult_lt_compat_r; [apply priority_penalty_pos |].
    assert (Hl : load_score (current_load a + m) < load_score (current_load a + n))
      by (apply load_score_strictly_antitone; lia).
    pose proof (availability_factor_pos a). nra.
  - unfold details_of, calculate_composite_score_with_fairness.
    destruct (calculate_skill_match_score t a). repeat split.
Qed.

Lemma in_batch_count_lowers_score_witness :
  composite_of vpn_ticket vpn_specialist 1 < composite_of vpn_ticket vpn_specialist 0.
Proof.
  apply (in_batch_count_lowers_score vpn_ticket vpn_specialist 0 1);
    [lia | left; simpl; lia].
Defined.

(** X10: of two "Available" agents with the same skills and the same
    experience level, the one with the smaller total load (committed load
    plus in-batch count) has the strictly greater composite score for
    every ticket, provided the larger total load is below 8 or the smaller
    one is at most 6; the more loaded one is then not chosen while the
    other is in the agent list. *)
Theorem less_loaded_twin_preferred
    (agents : list Agent) (st : Alloc) (t : Ticket) (a b : Agent) :
  skills a = skills b ->
  experience_level a = experience_level b ->
  availability_status a = "Available" ->
  availability_status b = "Available" ->
  (current_load a + count_of (counts st) a
   < current_load b + count_of (counts st) b)%Z ->
  (current_load b + count_of (counts st) b < 8
   \/ current_load a + count_of (counts st) a <= 6)%Z ->
  In a agents ->
  score_at t (counts st) b < score_at t (counts st) a /\
  chosen agents st t <> Some b.
Proof.
  intros Hsk Hex Ha Hb Hlt Hside Hin.
  assert (Hscore : score_at t (counts st) b < score_at t (counts st) a).
  { unfold score_at. rewrite !composite_by_parts.
    assert (Es : calculate_skill_match_score t a = calculate_skill_match_score t b)
      by (unfold calculate_skill_match_score; now rewrite Hsk).
    assert (Ee : calculate_experience_score a = calculate_experience_score b)
      by (unfold calculate_experience_score; now rewrite Hex).
    assert (Ea : availability_factor a = 1)
      by (unfold availability_factor; rewrite Ha; simpl; lra).
    assert (Eb : availability_factor b = 1)
      by (unfold availability_factor; rewrite Hb; simpl; lra).
    rewrite Es, Ee, Ea, Eb.
    apply Rmult_lt_compat_r; [apply priority_penalty_pos |].
    assert (Hl : load_score (current_load b + count_of (counts st) b)
                 < load_score (current_load a + count_of (counts st) a))
      by (apply load_score_strictly_antitone; lia).
    lra. }
  split; [exact Hscore |].
  intros E. apply chosen_some in E. destruct E as [Hmax _].
  pose proof (first_maximiser_best t (counts st) agents b a Hmax Hin) as Hle.
  assert (is_available a = true) by now apply String.eqb_eq.
  specialize (Hle ltac:(assumption)). lra.
Qed.

Lemma less_loaded_twin_preferred_witness :
  chosen [tired_twin; rested_twin] (initial_alloc [tired_twin; rested_twin]) vpn_ticket
  <> Some tired_twin.
Proof.
  assert (E : forall a, count_of (counts (initial_alloc [tired_twin; rested_twin])) a = 0%Z)
    by (intros a; apply count_of_initial).
  apply (less_loaded_twin_preferred [tired_twin; rested_twin]
           (initial_alloc [tired_twin; rested_twin]) vpn_ticket rested_twin tired_twin
           eq_refl eq_refl eq_refl eq_refl).
  - rewrite !E. simpl. lia.
  - left. rewrite E. simpl. lia.
  - right. left. reflexivity.
Defined.

(** ** The batch as a whole *)

(** X11: with positive proficiency levels and a non-negative experience
    level, the composite score of an agent is strictly positive for every
    ticket and every in-batch count, whatever the agent's load and
    availability; it is then above the initial [best_score] of -1. *)
Theorem composite_score_above_sentinel (t : Ticket) (a : Agent) (n : Z) :
  (forall skill level, In (skill, level) (skills a) -> (0 < level)%Z) ->
  (0 <= experience_level a)%Z ->
  0 < composite_of t a n /\ best_score no_best < composite_of t a n.
Proof.
  intros Hs He. pose proof (composite_score_pos t a n Hs He) as H.
  split; [exact H |]. simpl. lra.
Qed.

Lemma composite_score_above_sentinel_witness :
  0 < composite_of outage_ticket vpn_agent 3.
Proof.
  apply (composite_score_above_sentinel outage_ticket vpn_agent 3).
  - intros skill level [E | [E | []]]; inversion E; lia.
  - simpl. lia.
Defined.

Lemma batch_without_candidates (agents : list Agent) (ts : list Ticket) (st : Alloc) :
  (forall a, In a agents -> is_available a = false) ->
  assignments (fold_left (allocate agents) ts st) = assignments st /\
  counts (fold_left (allocate agents) ts st) = counts st /\
  printed (fold_left (allocate agents) ts st)
    = (printed st ++ map warning_line ts)%list.
Proof.
  intros H. revert st. induction ts as [| t ts IH]; intros st.
  - simpl. now rewrite app_nil_r.
  - cbn [fold_left map]. rewrite none_available_none_chosen by exact H.
    destruct (IH (skipped st t)) as (E1 & E2 & E3).
    rewrite E1, E2, E3. cbn [skipped assignments counts printed].
    now rewrite <- app_assoc.
Qed.

(** X12: when no agent has the status "Available" (in particular when the
    agent list is empty), the batch produces no assignment, leaves every
    counter at 0 and prints one warning per ticket, in visiting order. *)
Theorem no_candidate_batch (agents : list Agent) (tickets : list Ticket) :
  (forall a, In a agents -> availability_status a <> "Available") ->
  assign_tickets agents tickets = [] /\
  printed (run_allocator agents tickets)
    = map warning_line (sorted_tickets tickets) /\
  counts (run_allocator agents tickets) = initial_counts agents.
Proof.
  intros H.
  assert (H' : forall a, In a agents -> is_available a = false).
  { intros a Ha. apply String.eqb_neq. now apply H. }
  destruct (batch_without_candidates agents (sorted_tickets tickets)
              (initial_alloc agents) H') as (E1 & E2 & E3).
  unfold assign_tickets, run_allocator. now rewrite E1, E2, E3.
Qed.

Lemma no_candidate_batch_witness :
  assign_tickets [busy_agent] [quiet_ticket; outage_ticket] = [] /\
  List.length (printed (run_allocator [busy_agent] [quiet_ticket; outage_ticket])) = 2%nat.
Proof.
  destruct (no_candidate_batch [busy_agent] [quiet_ticket; outage_ticket])
    as (H1 & H2 & _).
  - intros a [<- | []]. discriminate.
  - split; [exact H1 |]. rewrite H2, length_map.
    apply sorted_reverse_length.
Defined.

Lemma batch_with_candidate (agents : list Agent) (ts : list Ticket) (st : Alloc) :
  sound_levels agents ->
  (exists a, In a agents /\ availability_status a = "Available") ->
  printed (fold_left (allocate agents) ts st) = printed st /\
  map a_ticket_id (assignments (fold_left (allocate agents) ts st))
    = (map a_ticket_id (assignments st) ++ map ticket_id ts)%list /\
  map a_title (assignments (fold_left (allocate agents) ts st))
    = (map a_title (assignments st) ++ map title ts)%list.
Proof.
  intros Hwf Hav. revert st. induction ts as [| t ts IH]; intros st.
  - simpl. now rewrite !app_nil_r.
  - cbn [fold_left map].
    destruct (greedy_choice_when_levels_sound agents st t Hwf Hav)
      as (a & _ & _ & ->).
    destruct (IH (assigned_to st t a)) as (E1 & E2 & E3).
    rewrite E1, E2, E3.
    cbn [assigned_to commit assignments printed].
    rewrite !map_app, <- !app_assoc. auto.
Qed.

(** X13: with positive proficiency levels and non-negative experience
    levels, as soon as one agent is "Available" every ticket of the batch
    is assigned: no warning is printed and the assignments carry the ids
    and titles of the tickets in visiting order. *)
Theorem every_ticket_assigned (agents : list Agent) (tickets : list Ticket) :
  sound_levels agents ->
  (exists a, In a agents /\ availability_status a = "Available") ->
  printed (run_allocator agents tickets) = [] /\
  map a_ticket_id (assign_tickets agents tickets)
    = map ticket_id (sorted_tickets tickets) /\
  map a_title (assign_tickets agents tickets)
    = map title (sorted_tickets tickets) /\
  List.length (assign_tickets agents tickets) = List.length tickets.
Proof.
  intros Hwf Hav.
  destruct (batch_with_candidate agents (sorted_tickets tickets)
              (initial_alloc agents) Hwf Hav) as (E1 & E2 & E3).
  unfold assign_tickets, run_allocator.
  split; [exact E1 |]. split; [exact E2 |]. split; [exact E3 |].
  rewrite <- (length_map a_ticket_id), E2. simpl. rewrite length_map.
  apply sorted_reverse_length.
Qed.

Lemma every_ticket_assigned_witness :
  map a_ticket_id (assign_tickets [busy_agent; idle_agent]
                     [quiet_ticket; vpn_ticket; outage_ticket])
  = ["T2"; "T1"; "T3"].
Proof.
  destruct (every_ticket_assigned [busy_agent; idle_agent]
              [quiet_ticket; vpn_ticket; outage_ticket]) as (_ & H & _).
  - intros a [<- | [<- | []]]; (split; [| simpl; lia]).
    + intros skill level [].
    + intros skill level [E | []]. inversion E. lia.
  - exists idle_agent. split; [right; left; reflexivity | reflexivity].
  - rewrite H, outage_visited_first. reflexivity.
Defined.

(** ** Counters and assignments *)

Lemma is_agent_id_member (agents : list Agent) (a : Agent) :
  In a agents -> is_agent_id agents (agent_id a) = true.
Proof.
  intros H. unfold is_agent_id. apply existsb_exists.
  exists a. split; [exact H | apply String.eqb_refl].
Qed.

Lemma counters_count_initial (agents : list Agent) :
  counters_count agents (initial_alloc agents).
Proof.
  unfold counters_count, initial_alloc, initial_counts, assigned_count, is_agent_id.
  cbn [counts assignments List.filter List.length]. intros id.
  induction agents as [| x agents IH]; simpl.
  - apply lookup_empty.
  - rewrite lookup_insert. destruct (decide (agent_id x = id)) as [-> | Hne].
    + now rewrite String.eqb_refl.
    + apply String.eqb_neq in Hne. rewrite Hne. exact IH.
Qed.

Lemma assigned_count_snoc (asgs : list Assignment) (x : Assignment) (id : string) :
  assigned_count (asgs ++ [x]) id =
    (assigned_count asgs id
     + if String.eqb (assigned_agent_id x) id then 1 else 0)%Z.
Proof.
  unfold assigned_count. rewrite List.filter_app, length_app. simpl.
  destruct (String.eqb (assigned_agent_id x) id); simpl; lia.
Qed.

Lemma counters_count_allocate (agents : list Agent) (st : Alloc) (t : Ticket) :
  counters_count agents st -> counters_count agents (allocate agents st t).
Proof.
  intros H id. rewrite allocate_cases.
  destruct (chosen agents st t) as [a |] eqn:E; [| apply H].
  apply chosen_some in E. destruct E as [Hmax _].
  apply first_maximiser_member in Hmax. destruct Hmax as [Hin _].
  cbn [assigned_to commit counts assignments].
  rewrite lookup_insert, assigned_count_snoc.
  cbn [assignment_for assigned_agent_id].
  destruct (decide (agent_id a = id)) as [<- | Hne].
  - rewrite String.eqb_refl, is_agent_id_member by exact Hin.
    unfold count_of. rewrite (H (agent_id a)), is_agent_id_member by exact Hin.
    reflexivity.
  - apply String.eqb_neq in Hne. rewrite Hne, Z.add_0_r. apply H.
Qed.

Lemma counters_count_batch (agents : list Agent) (ts : list Ticket) (st : Alloc) :
  counters_count agents st ->
  counters_count agents (fold_left (allocate agents) ts st).
Proof.
  revert st. induction ts as [| t ts IH]; intros st H; [exact H |].
  simpl. now apply IH, counters_count_allocate.
Qed.

(** X14: when the batch ends, the counter kept under an agent's id is the
    number of assignments that name this id, the counters have no key
    that is not an agent's id, and no counter is negative. *)
Theorem counters_match_assignments (agents : list Agent) (tickets : list Ticket) :
  forall id : string,
    counts (run_allocator agents tickets) !! id =
      (if is_agent_id agents id
       then Some (assigned_count (assign_tickets agents tickets) id)
       else None) /\
    (0 <= assigned_count (assign_tickets agents tickets) id)%Z.
Proof.
  intros id. split.
  - apply (counters_count_batch agents (sorted_tickets tickets) (initial_alloc agents)).
    apply counters_count_initial.
  - unfold assigned_count. lia.
Qed.

Lemma sublist_NoDup {A : Type} (l1 l2 : list A) :
  sublist l1 l2 -> List.NoDup l2 -> List.NoDup l1.
Proof.
  induction 1 as [| x l1 l2 Hs IH | x l1 l2 Hs IH]; intros Hnd.
  - constructor.
  - inversion Hnd as [| ? ? Hx Hnd']; subst. constructor; [| now apply IH].
    intros Hin. apply Hx. now apply (sublist_In l1 l2).
  - inversion Hnd; subst. now apply IH.
Qed.

(** X15: when the ticket ids of the batch are pairwise distinct, so are
    the ticket ids of the assignments: no ticket is assigned twice. *)
Theorem no_ticket_assigned_twice (agents : list Agent) (tickets : list Ticket) :
  List.NoDup (map ticket_id tickets) ->
  List.NoDup (map a_ticket_id (assign_tickets agents tickets)).
Proof.
  intros Hnd.
  destruct (batch_order agents (sorted_tickets tickets) (initial_alloc agents))
    as (ids & lines & E & _ & Hsub & _).
  unfold assign_tickets, run_allocator. rewrite E. simpl.
  apply (sublist_NoDup _ _ Hsub).
  eapply Permutation_NoDup; [| exact Hnd].
  apply Permutation_map, sorted_reverse_perm.
Qed.

Lemma no_ticket_assigned_twice_witness :
  List.NoDup (map a_ticket_id
                (assign_tickets [busy_agent; idle_agent] [quiet_ticket; outage_ticket])).
Proof.
  apply (no_ticket_assigned_twice [busy_agent; idle_agent] [quiet_ticket; outage_ticket]).
  repeat constructor; simpl; intuition discriminate.
Defined.

(** ** Summary report *)

Lemma recount_from (asgs : list Assignment) (m : gmap string Z) (id : string) :
  default 0%Z
    (fold_left (fun m asg =>
                  <[assigned_agent_id asg :=
                      (default 0%Z (m !! assigned_agent_id asg) + 1)%Z]> m)
               asgs m !! id)
  = (default 0%Z (m !! id) + assigned_count asgs id)%Z.
Proof.
  revert m. induction asgs as [| x asgs IH]; intros m.
  - unfold assigned_count. simpl. lia.
  - cbn [fold_left]. rewrite IH.
    change (x :: asgs) with ([x] ++ asgs)%list.
    unfold assigned_count. rewrite List.filter_app, length_app. cbn [List.filter].
    rewrite lookup_insert.
    destruct (decide (assigned_agent_id x = id)) as [-> | Hne].
    + rewrite String.eqb_refl. simpl. lia.
    + apply String.eqb_neq in Hne. rewrite Hne. simpl. lia.
Qed.

Lemma new_assignments_count (asgs : list Assignment) (a : Agent) :
  new_assignments asgs a = assigned_count asgs (agent_id a).
Proof.
  unfold new_assignments, recount. rewrite recount_from, lookup_empty. simpl. lia.
Qed.

(** X16: in the summary of a batch, the "new tickets" figure of every
    agent of the list, recounted from the assignment list, is the counter
    the allocator ended with for that agent, and the "total load" figure
    is the agent's committed load plus that counter. *)
Theorem summary_agrees_with_counters
    (agents : list Agent) (tickets : list Ticket) (a : Agent) :
  In a agents ->
  let out := run_allocator agents tickets in
  counts out !! agent_id a = Some (new_assignments (assignments out) a) /\
  (0 <= new_assignments (assignments out) a)%Z /\
  In (workload_line a (count_of (counts out) a))
     (fst (_display_summary agents tickets (assignments out))).
Proof.
  intros Hin out.
  pose proof (counters_count_batch agents (sorted_tickets tickets)
                (initial_alloc agents) (counters_count_initial agents)
                (agent_id a)) as Hc.
  rewrite is_agent_id_member in Hc by exact Hin.
  fold (run_allocator agents tickets) in Hc. fold out in Hc.
  rewrite new_assignments_count. split; [exact Hc |]. split.
  - unfold assigned_count. lia.
  - unfold _display_summary. cbn [fst].
    apply in_or_app. left. apply in_or_app. right.
    apply in_map_iff. exists a. split; [| exact Hin].
    unfold count_of. rewrite Hc, new_assignments_count. reflexivity.
Qed.

Lemma summary_agrees_with_counters_witness :
  counts (run_allocator [busy_agent; idle_agent] [quiet_ticket]) !! "A1"
  = Some (new_assignments
            (assign_tickets [busy_agent; idle_agent] [quiet_ticket]) idle_agent).
Proof.
  apply (summary_agrees_with_counters [busy_agent; idle_agent] [quiet_ticket] idle_agent).
  right. left. reflexivity.
Defined.

Lemma batch_lengths (agents : list Agent) (tickets : list Ticket) :
  (List.length (assign_tickets agents tickets)
   + List.length (printed (run_allocator agents tickets))
   = List.length tickets)%nat.
Proof.
  destruct (batch_order agents (sorted_tickets tickets) (initial_alloc agents))
    as (ids & lines & E1 & E2 & _ & _ & L).
  unfold assign_tickets, run_allocator.
  rewrite <- (length_map a_ticket_id), E1, E2. simpl.
  rewrite L. apply sorted_reverse_length.
Qed.

(** X17: the success rate the summary reports for a batch cannot be
    computed when the ticket list is empty (the division raises, after
    the other lines were printed); otherwise it lies between 0 and 100,
    and it is 100 exactly when no warning was printed during allocation. *)
Theorem summary_success_rate (agents : list Agent) (tickets : list Ticket) :
  match snd (_display_summary agents tickets (assign_tickets agents tickets)) with
  | None => tickets = []
  | Some rate =>
      tickets <> [] /\ 0 <= rate <= 100 /\
      (rate = 100 <-> printed (run_allocator agents tickets) = [])
  end.
Proof.
  unfold _display_summary, success_rate. cbn [snd].
  destruct tickets as [| t ts] eqn:Et; [reflexivity |]. rewrite <- Et.
  pose proof (batch_lengths agents tickets) as L.
  set (k := List.length (assign_tickets agents tickets)) in *.
  set (w := List.length (printed (run_allocator agents tickets))) in *.
  assert (Hn : (0 < List.length tickets)%nat) by (rewrite Et; simpl; lia).
  assert (Hpos : 0 < INR (List.length tickets)) by now apply lt_0_INR.
  assert (Hk : 0 <= INR k) by apply pos_INR.
  assert (Hle : INR k <= INR (List.length tickets)) by (apply le_INR; lia).
  assert (Hdiv : 0 <= INR k / INR (List.length tickets) <= 1).
  { split.
    - apply Rmult_le_pos; [exact Hk | left; now apply Rinv_0_lt_compat].
    - apply (Rmult_le_reg_r (INR (List.length tickets))); [exact Hpos |].
      unfold Rdiv. rewrite Rmult_assoc, Rinv_l by lra. lra. }
  split; [rewrite Et; discriminate |]. split; [lra |].
  split.
  - intros E.
    assert (E1 : INR k / INR (List.length tickets) = 1) by lra.
    assert (E2 : INR k = INR (List.length tickets)).
    { apply (Rmult_eq_compat_r (INR (List.length tickets))) in E1.
      unfold Rdiv in E1. rewrite Rmult_assoc, Rinv_l in E1 by lra. lra. }
    apply INR_eq in E2.
    assert (w = 0%nat) by lia.
    unfold w in *. now apply length_zero_iff_nil.
  - intros E. unfold w in L. rewrite E in L. simpl in L.
    replace (List.length tickets) with k by lia.
    assert (0 < INR k) by (apply lt_0_INR; lia).
    unfold Rdiv. rewrite Rinv_r by lra. lra.
Qed.

Lemma sumZ_map_plus {A : Type} (f g : A -> Z) (l : list A) :
  sumZ (map (fun x => (f x + g x)%Z) l) = (sumZ (map f l) + sumZ (map g l))%Z.
Proof. induction l as [| x l IH]; simpl; lia. Qed.

Lemma sumZ_indicator (agents : list Agent) (id : string) :
  List.NoDup (map agent_id agents) ->
  sumZ (map (fun a => if String.eqb id (agent_id a) then 1%Z else 0%Z) agents)
  = if is_agent_id agents id then 1%Z else 0%Z.
Proof.
  unfold is_agent_id. induction agents as [| x agents IH]; intros Hnd; [reflexivity |].
  simpl in Hnd. inversion Hnd as [| ? ? Hx Hnd']; subst.
  cbn [map sumZ fold_right existsb]. fold (sumZ (map
    (fun a => if String.eqb id (agent_id a) then 1%Z else 0%Z) agents)).
  rewrite (IH Hnd'). rewrite (String.eqb_sym (agent_id x) id).
  destruct (String.eqb_spec id (agent_id x)) as [-> | Hne]; [| reflexivity].
  destruct (existsb (fun a => String.eqb (agent_id a) (agent_id x)) agents) eqn:E;
    [| reflexivity].
  exfalso. apply Hx. apply existsb_exists in E. destruct E as (a & Ha & Ea).
  apply String.eqb_eq in Ea. rewrite <- Ea. now apply in_map.
Qed.

Lemma assigned_count_cons (x : Assignment) (asgs : list Assignment) (id : string) :
  assigned_count (x :: asgs) id =
    ((if String.eqb (assigned_agent_id x) id then 1 else 0)
     + assigned_count asgs id)%Z.
Proof.
  unfold assigned_count. cbn [List.filter].
  destruct (String.eqb (assigned_agent_id x) id); simpl List.length; lia.
Qed.

Lemma new_tickets_total (agents : list Agent) (asgs : list Assignment) :
  List.NoDup (map agent_id agents) ->
  (forall x, In x asgs -> is_agent_id agents (assigned_agent_id x) = true) ->
  sumZ (map (new_assignments asgs) agents) = Z.of_nat (List.length asgs).
Proof.
  intros Hnd. induction asgs as [| x asgs IH]; intros Hids.
  - rewrite (map_ext _ (fun _ => 0%Z))
      by (intros a; now rewrite new_assignments_count).
    clear. induction agents as [| a agents IHa]; simpl in *; lia.
  - rewrite (map_ext _ (fun a =>
        ((if String.eqb (assigned_agent_id x) (agent_id a) then 1 else 0)
         + new_assignments asgs a)%Z)).
    2: { intros a. rewrite !new_assignments_count. apply assigned_count_cons. }
    rewrite sumZ_map_plus, IH by (intros y Hy; apply Hids; now right).
    rewrite sumZ_indicator by exact Hnd.
    rewrite (Hids x) by now left.
    cbn [List.length]. lia.
Qed.

(** X18: with agent ids pairwise distinct, the "new tickets" figures of
    the summary add up to the number of assignments of the batch: every
    assignment is counted for exactly one agent. *)
Theorem summary_new_tickets_add_up (agents : list Agent) (tickets : list Ticket) :
  List.NoDup (map agent_id agents) ->
  sumZ (map (new_assignments (assign_tickets agents tickets)) agents)
  = Z.of_nat (List.length (assign_tickets agents tickets)).
Proof.
  intros Hnd. apply new_tickets_total; [exact Hnd |].
  intros x Hx. apply assigned_agent_is_available in Hx.
  destruct Hx as (a & _ & Ha & _ & _ & -> & _).
  now apply is_agent_id_member.
Qed.

Lemma summary_new_tickets_add_up_witness :
  sumZ (map (new_assignments
               (assign_tickets [busy_agent; idle_agent] [quiet_ticket; outage_ticket]))
            [busy_agent; idle_agent])
  = Z.of_nat (List.length
                (assign_tickets [busy_agent; idle_agent] [quiet_ticket; outage_ticket])).
Proof.
  apply (summary_new_tickets_add_up [busy_agent; idle_agent]).
  repeat constructor; simpl; intuition discriminate.
Defined.

(** ** Sorting once more *)

Lemma place_in_front {A : Type} (key : A -> R) (x : A) (l : list A) :
  Forall (fun y => key y <= key x) l -> place key x l = x :: l.
Proof.
  intros H. destruct l as [| y l]; [reflexivity |].
  inversion H; subst. simpl.
  destruct (Rlt_dec (key x) (key y)); [lra | reflexivity].
Qed.

Lemma sorted_reverse_fixed {A : Type} (key : A -> R) (l : list A) :
  descending key l -> sorted_reverse key l = l.
Proof.
  unfold descending. induction 1 as [| x l Hl IH Hx]; [reflexivity |].
  simpl. rewrite IH. now apply place_in_front.
Qed.

(** X19: tickets that already come in an order of non-increasing priority
    are visited in their input order; in particular sorting a visiting
    order again changes nothing. *)
Theorem sorted_tickets_keeps_sorted_input (tickets : list Ticket) :
  StronglySorted
    (fun t1 t2 => calculate_ticket_priority t2 <= calculate_ticket_priority t1)
    tickets ->
  sorted_tickets tickets = tickets /\
  forall others : list Ticket,
    sorted_tickets (sorted_tickets others) = sorted_tickets others.
Proof.
  intros H. split.
  - now apply sorted_reverse_fixed.
  - intros others. apply sorted_reverse_fixed, sorted_reverse_descending.
Qed.

Lemma sorted_tickets_keeps_sorted_input_witness :
  sorted_tickets [outage_ticket; quiet_ticket; vpn_ticket]
  = [outage_ticket; quiet_ticket; vpn_ticket].
Proof.
  apply (sorted_tickets_keeps_sorted_input [outage_ticket; quiet_ticket; vpn_ticket]).
  repeat constructor;
    rewrite ?outage_ticket_priority, ?quiet_ticket_priority, ?vpn_ticket_priority; lra.
Defined.

(** ** Rationale text *)

Lemma append_assoc3 (s1 s2 s3 : string) :
  ((s1 ++ s2) ++ s3)%string = (s1 ++ s2 ++ s3)%string.
Proof.
  induction s1 as [| c s1 IH]; [reflexivity |].
  rewrite !append_cons. now rewrite IH.
Qed.

Lemma join_cons (sep p : string) (rest : list string) :
  Text.join sep (p :: rest) =
    (p ++ match rest with
          | [] => ""
          | _ => sep ++ Text.join sep rest
          end)%string.
Proof. destruct rest; simpl; [now rewrite append_empty_r | reflexivity]. Qed.

(** X20: a rationale is the sentence "Assigned to <name> (<id>)", then
    the optional parts, then a full stop; the parts are empty when no
    skill matched, the committed load is above 4 and the experience level
    below 7; and the text depends on the score details only through the
    first three matched skills, not on the ticket, the scores or the
    in-batch count. *)
Theorem rationale_shape (t : Ticket) (a : Agent) (d : ScoreDetail) :
  (exists body : string,
      _generate_rationale t a d = (rationale_head a ++ body ++ ".")%string /\
      (matched_skills d = [] -> (4 < current_load a)%Z ->
       (experience_level a < 7)%Z -> body = "")) /\
  (forall (t' : Ticket) (d' : ScoreDetail),
      firstn 3 (matched_skills d') = firstn 3 (matched_skills d) ->
      _generate_rationale t' a d' = _generate_rationale t a d).
Proof.
  split.
  - unfold _generate_rationale. fold (rationale_head a).
    set (top := map (skill_phrase a) (firstn 3 (matched_skills d))).
    assert (Htop : matched_skills d = [] -> top = [])
      by (intros E; unfold top; now rewrite E).
    destruct top as [| s0 top'];
      destruct (Z.leb_spec (current_load a) 2);
      destruct (Z.leb_spec (current_load a) 4);
      destruct (Z.leb_spec 9 (experience_level a));
      destruct (Z.leb_spec 7 (experience_level a));
      cbn [app]; rewrite join_cons, append_assoc3;
      (eexists; split; [reflexivity |]);
      intros Hm Hl He; try lia; try reflexivity;
      specialize (Htop Hm); discriminate.
  - intros t' d' E. unfold _generate_rationale. now rewrite E.
Qed.

(** ** Values of the priority and of the experience and workload scores *)

Lemma priority_before_cap_integer (t : Ticket) :
  priority_before_cap t
  = IZR (1 + 2 * Z.of_nat (hits t high_priority_keywords)
           + Z.of_nat (hits t medium_priority_keywords)).
Proof.
  unfold priority_before_cap. rewrite !plus_IZR, mult_IZR, <- !INR_IZR_INZ. lra.
Qed.

(** X21: the priority of a ticket is one of 1, 2, 3, 4 and 5; it is 1
    exactly when the ticket mentions no urgency phrase, and 5 exactly when
    twice the number of high-urgency phrases plus the number of
    medium-urgency phrases it mentions is at least 4. *)
Theorem ticket_priority_values (t : Ticket) :
  let h := hits t high_priority_keywords in
  let m := hits t medium_priority_keywords in
  calculate_ticket_priority t = IZR (Z.min (1 + 2 * Z.of_nat h + Z.of_nat m) 5) /\
  In (calculate_ticket_priority t) [1; 2; 3; 4; 5] /\
  (calculate_ticket_priority t = 1 <-> h = 0%nat /\ m = 0%nat) /\
  (calculate_ticket_priority t = 5 <-> (4 <= 2 * h + m)%nat).
Proof.
  intros h m.
  assert (E : calculate_ticket_priority t
              = IZR (Z.min (1 + 2 * Z.of_nat h + Z.of_nat m) 5)).
  { rewrite ticket_priority_formula, priority_before_cap_integer. fold h m.
    destruct (Z.min_spec (1 + 2 * Z.of_nat h + Z.of_nat m) 5) as [[Hlt ->] | [Hge ->]].
    - apply Rmin_left. apply IZR_le. lia.
    - apply Rmin_right. apply IZR_le. lia. }
  split; [exact E |]. rewrite E.
  set (k := Z.min (1 + 2 * Z.of_nat h + Z.of_nat m) 5).
  assert (Hk : (1 <= k <= 5)%Z) by (unfold k; lia).
  split; [| split].
  - assert (Hcases : (k = 1 \/ k = 2 \/ k = 3 \/ k = 4 \/ k = 5)%Z) by lia.
    simpl. destruct Hcases as [-> | [-> | [-> | [-> | ->]]]]; auto 6.
  - split.
    + intros H. apply eq_IZR in H. unfold k in H. lia.
    + intros [Hh Hm]. f_equal. unfold k. lia.
  - split.
    + intros H. apply eq_IZR in H. unfold k in H. lia.
    + intros H. f_equal. unfold k. lia.
Qed.

(** X22: the experience score does not decrease when the experience level
    increases, and it is exactly 1 from level 15 on and below 1 before. *)
Theorem experience_score_monotone (a b : Agent) :
  ((experience_level a <= experience_level b)%Z ->
   calculate_experience_score a <= calculate_experience_score b) /\
  (calculate_experience_score a = 1 <-> (15 <= experience_level a)%Z).
Proof.
  unfold calculate_experience_score, max_experience. split.
  - intros H.
    assert (IZR (Z.min (experience_level a) 15) <= IZR (Z.min (experience_level b) 15))
      by (apply IZR_le; lia).
    lra.
  - split.
    + intros H.
      assert (E : IZR (Z.min (experience_level a) 15) = IZR 15) by lra.
      apply eq_IZR in E. lia.
    + intros H. rewrite Z.min_r by lia. lra.
Qed.

(** X23: the workload score is positive for every agent and in-batch
    count; it is at most 1 when the total load is not negative; and an
    agent whose status is not "Available" scores 0.2 times what an
    "Available" agent with the same total load scores. *)
Theorem workload_score_range (a : Agent) (n : Z) :
  0 < calculate_workload_score a n /\
  ((0 <= current_load a + n)%Z -> calculate_workload_score a n <= 1) /\
  (forall (b : Agent) (m : Z),
      (current_load b + m = current_load a + n)%Z ->
      availability_status a <> "Available" ->
      availability_status b = "Available" ->
      calculate_workload_score a n = 0.2 * calculate_workload_score b m).
Proof.
  split; [apply workload_score_pos |]. split.
  - intros H. unfold calculate_workload_score.
    assert (Hl : 0 < load_score (current_load a + n) <= 1).
    { split; [apply load_score_pos |].
      destruct (Z_lt_le_dec (current_load a + n) 8) as [Hlt | Hge].
      - rewrite load_score_decay by exact Hlt.
        assert (0 <= IZR (current_load a + n)) by (apply IZR_le; lia).
        destruct (Req_dec (IZR (current_load a + n)) 0) as [-> | Hne].
        + replace (- (0 / 3)) with 0 by lra. rewrite exp_0. lra.
        + left. rewrite <- exp_0. apply exp_increasing. lra.
      - rewrite load_score_overloaded by exact Hge. lra. }
    destruct (availability_factor_cases a) as [[_ ->] | [_ ->]]; nra.
  - intros b m E Ha Hb. unfold calculate_workload_score, availability_factor.
    rewrite E, Hb. apply String.eqb_neq in Ha. rewrite Ha. simpl. lra.
Qed.

(** ** The counter a decision uses *)

(** X24: when a ticket of the batch is decided, the in-batch count the
    scorer is given for an agent of the list, and records in the score
    details, is the number of assignments this agent's id has received
    from the tickets visited before. *)
Theorem decision_uses_earlier_assignments
    (agents : list Agent) (tickets earlier later : list Ticket) (t : Ticket) (a : Agent) :
  sorted_tickets tickets = (earlier ++ t :: later)%list ->
  In a agents ->
  let st := fold_left (allocate agents) earlier (initial_alloc agents) in
  count_of (counts st) a = assigned_count (assignments st) (agent_id a) /\
  current_assignments (details_at t (counts st) a)
    = assigned_count (assignments st) (agent_id a) /\
  run_allocator agents tickets
    = fold_left (allocate agents) later (allocate agents st t).
Proof.
  intros Hsplit Hin st.
  pose proof (counters_count_batch agents earlier (initial_alloc agents)
                (counters_count_initial agents) (agent_id a)) as Hc.
  rewrite is_agent_id_member in Hc by exact Hin. fold st in Hc.
  assert (E : count_of (counts st) a = assigned_count (assignments st) (agent_id a))
    by (unfold count_of; now rewrite Hc).
  split; [exact E |]. split.
  - unfold details_at.
    destruct (details_unfold t a (count_of (counts st) a)) as (_ & _ & _ & _ & ->).
    exact E.
  - unfold run_allocator. rewrite Hsplit, fold_left_app. reflexivity.
Qed.

Lemma decision_uses_earlier_assignments_witness :
  count_of (counts (fold_left (allocate [busy_agent; idle_agent]) [outage_ticket; quiet_ticket]
                      (initial_alloc [busy_agent; idle_agent]))) idle_agent
  = assigned_count
      (assignments (fold_left (allocate [busy_agent; idle_agent]) [outage_ticket; quiet_ticket]
                      (initial_alloc [busy_agent; idle_agent])))
      (agent_id idle_agent).
Proof.
  apply (decision_uses_earlier_assignments [busy_agent; idle_agent]
           [quiet_ticket; vpn_ticket; outage_ticket]
           [outage_ticket; quiet_ticket] [] vpn_ticket idle_agent).
  - apply outage_visited_first.
  - right. left. reflexivity.
Defined.
